(** * The request-orchestration layer of the OpenMetadata tasks extension

    A shallow embedding of
    - [RateLimiter]            (rateLimiter.ts, the class at the end of
                                src/dmp-vs-extension/src/webviewProvider.ts),
    - [OpenMetadataAPI]        (openMetadataApi.ts, src/unnamed/part_002),
    - [TokenManager]           (src/dmp-vs-extension/src/tokenManager.ts),
    - [TaskTreeDataProvider]   (src/dmp-vs-extension/src/taskTreeDataProvider.ts),
    - [MockOpenMetadataAPI]    (src/dmp-vs-extension/src/mockOpenMetadataApi.ts),
    - [TaskWebview]            (taskWebview.ts, src/unnamed/part_003),
    with the properties of the specification stated and settled on it.

    Conventions.  A JavaScript [number] that the code uses as an integer is a
    [Z]; a [Map] used through get/set/delete/has is a [gmap]; a [Map] that is
    iterated is an association list in insertion order.  [Date.now()] is an
    input of the operation that reads it.  An [async] method is modelled by
    the state it leaves and the value or error its promise settles with. *)

From Stdlib Require Import ZArith Lia.
From stdpp Require Import gmap strings list pretty.

Local Open Scope Z_scope.

(* ===================================================================== *)
(** * RateLimiter *)
(* ===================================================================== *)

Module RateLimiter.

(** The fields of the class.  [queue] holds the [resolve] callbacks of the
    callers suspended in [wait]; a callback is identified by its caller. *)
Record t := mk {
  maxConcurrent : Z;
  interval : Z;
  queue : list nat;
  running : Z
}.

Definition new (maxConcurrent interval : Z) : t :=
  mk maxConcurrent interval [] 0.

(** The limiter inside the event loop of its host: the clock, the pending
    [setTimeout(() => this.release(), this.interval)] callbacks by due time in
    firing order, and two observations: which callers' [wait()] has returned
    (and when), and how many times [release()] has run. *)
Record loop := mkLoop {
  limiter : t;
  now : Z;
  timers : list Z;
  acquired : list (nat * Z);
  released : nat
}.

Definition start (maxConcurrent interval : Z) : loop :=
  mkLoop (new maxConcurrent interval) 0 [] [] 0.

(** [setTimeout]: the callback is placed after every pending one that is due
    no later (timers of equal due time fire in the order they were set). *)
Fixpoint schedule (due : Z) (ts : list Z) : list Z :=
  match ts with
  | [] => [due]
  | t :: ts' => if due <? t then due :: ts else t :: schedule due ts'
  end.

(** The delay [setTimeout] applies in the extension host (Node): one
    millisecond when the number given is below 1 or above [TIMEOUT_MAX],
    the largest signed 32-bit number. *)
Definition TIMEOUT_MAX : Z := 2147483647.
Definition timeoutDelay (ms : Z) : Z :=
  if (1 <=? ms) && (ms <=? TIMEOUT_MAX) then ms else 1.

(** The tail of [wait]: [this.running++; setTimeout(...)], after which the
    caller's [wait()] returns. *)
Definition proceed (c : nat) (s : loop) : loop :=
  let l := limiter s in
  mkLoop (mk (maxConcurrent l) (interval l) (queue l) (running l + 1))
         (now s)
         (schedule (now s + timeoutDelay (interval l)) (timers s))
         (acquired s ++ [(c, now s)])
         (released s).

(** [wait()] called by [c]: with [running >= maxConcurrent] the caller is
    suspended on a promise whose [resolve] is pushed on the queue. *)
Definition wait (c : nat) (s : loop) : loop :=
  let l := limiter s in
  if maxConcurrent l <=? running l then
    mkLoop (mk (maxConcurrent l) (interval l) (queue l ++ [c]) (running l))
           (now s) (timers s) (acquired s) (released s)
  else proceed c s.

(** [release()]: [this.running--], then the first queued [resolve] is shifted
    and called; the caller it wakes continues with the tail of [wait] in the
    microtask that follows, before any other timer or call runs. *)
Definition release (s : loop) : loop :=
  let l := limiter s in
  match queue l with
  | [] =>
      mkLoop (mk (maxConcurrent l) (interval l) [] (running l - 1))
             (now s) (timers s) (acquired s) (S (released s))
  | next :: q =>
      proceed next
        (mkLoop (mk (maxConcurrent l) (interval l) q (running l - 1))
                (now s) (timers s) (acquired s) (S (released s)))
  end.

(** The event loop runs the next due timer. *)
Definition fire (s : loop) : option loop :=
  match timers s with
  | [] => None
  | due :: ts =>
      Some (release (mkLoop (limiter s) (Z.max (now s) due) ts
                            (acquired s) (released s)))
  end.

(** The loop runs timers until none is left (or [fuel] runs out). *)
Fixpoint drain (fuel : nat) (s : loop) : loop :=
  match fuel with
  | O => s
  | S f => match fire s with Some s' => drain f s' | None => s end
  end.

(** Callers [0], [1], ..., [n-1] call [wait()] one after the other, with no
    time in between. *)
Fixpoint issue (n : nat) (s : loop) : loop :=
  match n with
  | O => s
  | S n' => wait n' (issue n' s)
  end.

(** Time passes until [t]: every timer due by then fires. *)
Fixpoint advance_go (fuel : nat) (t : Z) (s : loop) : loop :=
  match fuel with
  | O => s
  | S f =>
      match timers s with
      | due :: _ =>
          if due <=? t then
            match fire s with Some s' => advance_go f t s' | None => s end
          else s
      | [] => s
      end
  end.

Definition advance (t : Z) (s : loop) : loop :=
  let s' := advance_go (length (queue (limiter s)) + length (timers s)) t s in
  mkLoop (limiter s') (Z.max (now s') t) (timers s') (acquired s') (released s').

(** The number of [wait()] calls so far; the next caller gets it as its name. *)
Definition callers (s : loop) : nat :=
  (length (acquired s) + length (queue (limiter s)))%nat.

Definition has_acquired (c : nat) (s : loop) : bool :=
  bool_decide (c ∈ (acquired s).*1).

(** [await this.rateLimiter.wait()] seen from the caller [c]: the event loop
    runs timers until [c]'s [wait()] has returned. *)
Fixpoint await_go (fuel : nat) (c : nat) (s : loop) : loop :=
  if has_acquired c s then s
  else match fuel with
       | O => s
       | S f => match fire s with Some s' => await_go f c s' | None => s end
       end.

Definition await (c : nat) (s : loop) : loop :=
  await_go (length (queue (limiter s)) + length (timers s)) c s.

(** Acquisitions that have been granted and not yet released. *)
Definition outstanding (s : loop) : Z :=
  Z.of_nat (length (acquired s)) - Z.of_nat (released s).

(** The states the loop can be in: callers call [wait] and timers fire, in
    any order. *)
Inductive reachable (maxC iv : Z) : loop -> Prop :=
| reach_start : reachable maxC iv (start maxC iv)
| reach_wait c s : reachable maxC iv s -> reachable maxC iv (wait c s)
| reach_fire s s' : reachable maxC iv s -> fire s = Some s' -> reachable maxC iv s'.

(** What holds of every state of the loop of a limiter with [maxC] slots. *)
Record sound (maxC : Z) (s : loop) : Prop := {
  sound_max : maxConcurrent (limiter s) = maxC;
  sound_running : 0 <= running (limiter s) <= maxC;
  sound_timers : Z.of_nat (length (timers s)) = running (limiter s);
  sound_out : outstanding s = running (limiter s);
  sound_full : queue (limiter s) <> [] -> running (limiter s) = maxC
}.

(** In the scenario in which callers [0], ..., [n-1] have called [wait]:
    those served, then those queued, are the callers in the order of their
    calls. *)
Definition fifo (n : nat) (s : loop) : Prop :=
  (acquired s).*1 ++ queue (limiter s) = seq 0 n.

Definition pending (s : loop) : nat :=
  (length (queue (limiter s)) + length (timers s))%nat.

(* --------------------------------------------------------------------- *)
(** ** The clock *)

(** The clock moves on while nothing runs; a timer may fire late, never
    early. *)
Definition tick (t : Z) (s : loop) : loop :=
  mkLoop (limiter s) (Z.max (now s) t) (timers s) (acquired s) (released s).

(** The states of the loop when time passes as well: callers call [wait],
    timers fire, the clock moves on, in any order. *)
Inductive evolves (maxC iv : Z) : loop -> Prop :=
| evolves_start : evolves maxC iv (start maxC iv)
| evolves_wait c s : evolves maxC iv s -> evolves maxC iv (wait c s)
| evolves_fire s s' : evolves maxC iv s -> fire s = Some s' -> evolves maxC iv s'
| evolves_tick t s : evolves maxC iv s -> evolves maxC iv (tick t s).

(** The times at which the permits were granted, in order. *)
Definition grants (s : loop) : list Z := (acquired s).*2.

(** What the timers know: the pending timers are those of the permits not
    yet released, every released permit is at least one delay old, and a
    permit is granted at least one delay after the permit [maxC] grants
    before it. *)
Record paced (maxC iv : Z) (s : loop) : Prop := {
  paced_max : maxConcurrent (limiter s) = maxC;
  paced_interval : interval (limiter s) = iv;
  paced_released : (released s <= length (grants s))%nat;
  paced_running :
    running (limiter s) = Z.of_nat (length (grants s)) - Z.of_nat (released s);
  paced_bound : running (limiter s) <= maxC;
  paced_past : Forall (fun t => t <= now s) (grants s);
  paced_timers :
    timers s = (fun t => t + timeoutDelay iv) <$> drop (released s) (grants s);
  paced_done : forall i t,
    (i < released s)%nat -> grants s !! i = Some t -> t + timeoutDelay iv <= now s;
  paced_spaced : forall i t t',
    grants s !! i = Some t -> grants s !! (i + Z.to_nat maxC)%nat = Some t' ->
    t + timeoutDelay iv <= t';
  paced_sorted : forall i j t t',
    (i <= j)%nat -> grants s !! i = Some t -> grants s !! j = Some t' -> t <= t'
}.

(* --------------------------------------------------------------------- *)
(** ** Properties *)

Ltac fields :=
  cbn [limiter now timers acquired released maxConcurrent interval queue
       running proceed] in *.

Lemma length_schedule due ts : length (schedule due ts) = S (length ts).
Proof.
  induction ts as [|t ts IH]; simpl; [done|].
  destruct (due <? t); simpl; by rewrite ?IH.
Qed.

Lemma outstanding_proceed c s : outstanding (proceed c s) = outstanding s + 1.
Proof. unfold outstanding, proceed; simpl. rewrite length_app; simpl. lia. Qed.

Lemma sound_start maxC iv : 0 <= maxC -> sound maxC (start maxC iv).
Proof. intros H. split; fields; try done; try lia. Qed.

Lemma wait_queues c s :
  maxConcurrent (limiter s) <= running (limiter s) ->
  wait c s =
    mkLoop (mk (maxConcurrent (limiter s)) (interval (limiter s))
               (queue (limiter s) ++ [c]) (running (limiter s)))
           (now s) (timers s) (acquired s) (released s).
Proof. intros H. unfold wait. by destruct (Z.leb_spec (maxConcurrent (limiter s)) (running (limiter s))); [|lia]. Qed.

Lemma wait_proceeds c s :
  running (limiter s) < maxConcurrent (limiter s) -> wait c s = proceed c s.
Proof. intros H. unfold wait. by destruct (Z.leb_spec (maxConcurrent (limiter s)) (running (limiter s))); [lia|]. Qed.

Lemma sound_wait maxC c s : sound maxC s -> sound maxC (wait c s).
Proof.
  intros [Hm Hr Ht Ho Hf].
  destruct (Z.le_gt_cases (maxConcurrent (limiter s)) (running (limiter s))) as [Hle|Hlt].
  - rewrite wait_queues by done. split; fields; try done. intros _. lia.
  - rewrite wait_proceeds by lia. split.
    + done.
    + fields. lia.
    + fields. rewrite length_schedule. lia.
    + rewrite outstanding_proceed. fields. lia.
    + fields. intros Hq. specialize (Hf Hq). lia.
Qed.

Lemma sound_fire maxC s s' :
  sound maxC s -> fire s = Some s' ->
  sound maxC s' /\ S (pending s') = pending s.
Proof.
  intros [Hm Hr Ht Ho Hf] Hfire. unfold fire in Hfire.
  destruct (timers s) as [|due ts] eqn:Et; [done|].
  injection Hfire as <-. rewrite length_cons in Ht.
  unfold release; fields.
  destruct (queue (limiter s)) as [|next q] eqn:Eq.
  - split; [split|]; fields; try done; try lia.
    + unfold outstanding in *; fields. lia.
    + unfold pending; fields. rewrite Eq, Et. done.
  - assert (running (limiter s) = maxC) by (apply Hf; done).
    split; [split|].
    + done.
    + fields. lia.
    + fields. rewrite length_schedule. lia.
    + rewrite outstanding_proceed. unfold outstanding in *; fields. lia.
    + fields. intros _. lia.
    + unfold pending; fields. rewrite length_schedule, Eq, Et. simpl. lia.
Qed.

Lemma fifo_wait maxC n s : sound maxC s -> fifo n s -> fifo (S n) (wait n s).
Proof.
  intros [Hm Hr Ht Ho Hf] Hq. unfold fifo in *.
  destruct (Z.le_gt_cases (maxConcurrent (limiter s)) (running (limiter s))) as [Hle|Hlt].
  - rewrite wait_queues by done. fields. rewrite app_assoc, Hq. by rewrite seq_S.
  - rewrite wait_proceeds by lia. fields.
    assert (Hnil : queue (limiter s) = []).
    { destruct (queue (limiter s)) eqn:E; [done|]. exfalso.
      assert (running (limiter s) = maxC) by (apply Hf; done). lia. }
    rewrite Hnil in *. rewrite fmap_app, app_nil_r in *.
    rewrite Hq. by rewrite seq_S.
Qed.

Lemma fire_resumes_head s s' c q :
  fire s = Some s' -> queue (limiter s) = c :: q ->
  queue (limiter s') = q /\ acquired s' = acquired s ++ [(c, now s')].
Proof.
  unfold fire. destruct (timers s) as [|due ts]; [done|].
  intros [= <-] Hq. unfold release; fields. rewrite Hq. fields. done.
Qed.

Lemma fire_idle_queue s s' :
  fire s = Some s' -> queue (limiter s) = [] ->
  queue (limiter s') = [] /\ acquired s' = acquired s.
Proof.
  unfold fire. destruct (timers s) as [|due ts]; [done|].
  intros [= <-] Hq. unfold release; fields. rewrite Hq. fields. done.
Qed.

Lemma fifo_fire n s s' : fifo n s -> fire s = Some s' -> fifo n s'.
Proof.
  unfold fifo. intros Hq Hfire.
  destruct (queue (limiter s)) as [|c q] eqn:Eq.
  - destruct (fire_idle_queue _ _ Hfire Eq) as [-> ->]. done.
  - destruct (fire_resumes_head _ _ _ _ Hfire Eq) as [-> ->].
    rewrite fmap_app; simpl. by rewrite <- app_assoc.
Qed.

Lemma sound_issue maxC iv n :
  0 <= maxC -> sound maxC (issue n (start maxC iv)) /\ fifo n (issue n (start maxC iv)).
Proof.
  intros H. induction n as [|n [IH1 IH2]]; simpl.
  - split; [by apply sound_start|done].
  - split; [by apply sound_wait|by eapply fifo_wait].
Qed.

Lemma sound_drain maxC n fuel s :
  sound maxC s -> fifo n s ->
  sound maxC (drain fuel s) /\ fifo n (drain fuel s).
Proof.
  revert s. induction fuel as [|f IH]; intros s Hs Hq; simpl; [done|].
  destruct (fire s) as [s'|] eqn:E; [|done].
  apply IH; [by destruct (sound_fire _ _ _ Hs E)|by eapply fifo_fire].
Qed.

Lemma drain_exhausts maxC fuel s :
  sound maxC s -> (pending s <= fuel)%nat -> timers (drain fuel s) = [].
Proof.
  revert s. induction fuel as [|f IH]; intros s Hs Hp; simpl.
  - unfold pending in Hp. destruct (timers s); [done|simpl in Hp; lia].
  - destruct (fire s) as [s'|] eqn:E.
    + destruct (sound_fire _ _ _ Hs E) as [Hs' Hp']. apply IH; [done|lia].
    + unfold fire in E. by destruct (timers s).
Qed.

Lemma pending_issue maxC n s :
  sound maxC s -> fifo n s -> released s = O -> pending s = n.
Proof.
  intros [Hm Hr Ht Ho Hf] Hq Hrel.
  unfold pending. unfold outstanding in Ho. rewrite Hrel in Ho.
  assert (length ((acquired s).*1 ++ queue (limiter s)) = n) as Hlen
    by (rewrite Hq; apply length_seq).
  rewrite length_app, length_fmap in Hlen. lia.
Qed.

Lemma released_issue maxC iv n : released (issue n (start maxC iv)) = O.
Proof.
  induction n as [|n IH]; simpl; [done|].
  unfold wait. by destruct (_ <=? _).
Qed.

Lemma reachable_sound maxC iv s :
  0 <= maxC -> reachable maxC iv s -> sound maxC s.
Proof.
  intros Hmax Hr. induction Hr as [|c s Hr IH|s s' Hr IH Hf].
  - by apply sound_start.
  - by apply sound_wait.
  - by destruct (sound_fire _ _ _ IH Hf).
Qed.

Lemma reachable_issue maxC iv n : reachable maxC iv (issue n (start maxC iv)).
Proof. induction n; simpl; [apply reach_start | by apply reach_wait]. Qed.

Lemma reachable_drain maxC iv fuel s :
  reachable maxC iv s -> reachable maxC iv (drain fuel s).
Proof.
  revert s. induction fuel as [|f IH]; intros s Hs; simpl; [done|].
  destruct (fire s) as [s'|] eqn:E; [|done].
  apply IH. by eapply reach_fire.
Qed.



Lemma has_acquired_proceed c s : has_acquired c (proceed c s) = true.
Proof.
  unfold has_acquired. apply bool_decide_eq_true. fields.
  rewrite fmap_app. apply elem_of_app. right. simpl. apply list_elem_of_here.
Qed.

Lemma sound_await_go maxC fuel c s : sound maxC s -> sound maxC (await_go fuel c s).
Proof.
  revert s. induction fuel as [|f IH]; intros s Hs; simpl.
  - by destruct (has_acquired c s).
  - destruct (has_acquired c s); [done|].
    destruct (fire s) as [s'|] eqn:E; [|done].
    apply IH. by destruct (sound_fire _ _ _ Hs E).
Qed.

Lemma await_go_done fuel c s : has_acquired c s = true -> await_go fuel c s = s.
Proof. intros H. destruct fuel; simpl; by rewrite H. Qed.

(** A queued caller is served once the callers queued before it are: with at
    least one slot, [await] ends with the permit. *)
Lemma await_go_acquires maxC fuel c s :
  1 <= maxC -> sound maxC s -> c ∈ queue (limiter s) ->
  (length (queue (limiter s)) <= fuel)%nat ->
  has_acquired c (await_go fuel c s) = true.
Proof.
  intros Hmax. revert s. induction fuel as [|f IH]; intros s Hs Hin Hlen.
  - destruct (queue (limiter s)); [by apply elem_of_nil in Hin|simpl in Hlen; lia].
  - simpl. destruct (has_acquired c s) eqn:Hc; [done|].
    destruct (queue (limiter s)) as [|c0 q] eqn:Eq; [by apply elem_of_nil in Hin|].
    assert (Hrun : running (limiter s) = maxC)
      by (apply (sound_full _ _ Hs); by rewrite Eq).
    pose proof (sound_timers _ _ Hs) as Ht.
    destruct (fire s) as [s'|] eqn:E.
    + destruct (fire_resumes_head _ _ _ _ E Eq) as [Hq' Ha'].
      destruct (sound_fire _ _ _ Hs E) as [Hs' _].
      apply elem_of_cons in Hin as [->|Hin].
      * assert (Hgot : has_acquired c0 s' = true).
        { unfold has_acquired. apply bool_decide_eq_true. rewrite Ha', fmap_app.
          apply elem_of_app. right. simpl. apply list_elem_of_here. }
        by rewrite await_go_done.
      * apply IH; [done|by rewrite Hq'|]. rewrite Hq'. simpl in Hlen. lia.
    + unfold fire in E. destruct (timers s); [simpl in Ht; lia|done].
Qed.

Lemma await_wait_acquires maxC c s :
  1 <= maxC -> sound maxC s -> has_acquired c (await c (wait c s)) = true.
Proof.
  intros Hmax Hs. unfold await.
  destruct (Z.le_gt_cases (maxConcurrent (limiter s)) (running (limiter s))) as [Hle|Hlt].
  - apply (await_go_acquires maxC); [done|by apply sound_wait| |lia].
    rewrite wait_queues by done. fields. apply elem_of_app. right.
    apply list_elem_of_here.
  - rewrite wait_proceeds by done.
    rewrite await_go_done; apply has_acquired_proceed.
Qed.

Lemma drain_idle fuel s : fire s = None -> drain fuel s = s.
Proof. intros H. destruct fuel; simpl; [done|]. by rewrite H. Qed.

(** C7, as the specification states it, at [maxConcurrent = 0], [k = 1]: the
    one caller is queued, no timer is ever set, and its [wait()] never
    returns, however long the event loop runs. *)
Lemma C7_no_slot_never_completes :
  ~ (exists fuel, (acquired (drain fuel (issue 1 (start 0 1000)))).*1 = seq 0 1).
Proof.
  intros [fuel H]. rewrite drain_idle in H by done. discriminate H.
Qed.

(** C7, amended to [maxConcurrent >= 1].  [maxConcurrent + k] callers call
    [wait()] at once and do nothing else.  After as many timer firings as
    there are callers, every [wait()] has returned, in the order of the
    calls, and nothing is left queued or scheduled; in every state the loop
    can be in (so at every instant before the first [interval] has elapsed)
    at most [maxConcurrent] acquisitions are outstanding; and a timer that
    fires while callers are queued resumes the one queued first. *)
Theorem C7_acquisitions_complete_in_order (maxC iv : Z) (k : nat) :
  1 <= maxC ->
  let n := (Z.to_nat maxC + k)%nat in
  let final := drain n (issue n (start maxC iv)) in
  (acquired final).*1 = seq 0 n /\
  queue (limiter final) = [] /\ timers final = [] /\
  (forall j fuel, outstanding (drain fuel (issue j (start maxC iv))) <= maxC) /\
  (forall s, reachable maxC iv s -> outstanding s <= maxC) /\
  (forall s s' c q, reachable maxC iv s -> fire s = Some s' ->
     queue (limiter s) = c :: q ->
     queue (limiter s') = q /\ acquired s' = acquired s ++ [(c, now s')]).
Proof.
  intros Hmax n final.
  destruct (sound_issue maxC iv n) as [Hs Hq]; [lia|].
  destruct (sound_drain maxC n n _ Hs Hq) as [Hsf Hqf]. fold final in Hsf, Hqf.
  assert (Ht : timers final = []).
  { apply (drain_exhausts maxC); [done|].
    rewrite (pending_issue maxC n); [done|done|done|apply released_issue]. }
  assert (Hqueue : queue (limiter final) = []).
  { destruct (queue (limiter final)) eqn:E; [done|]. exfalso.
    assert (running (limiter final) = maxC) by (apply (sound_full _ _ Hsf); by rewrite E).
    pose proof (sound_timers _ _ Hsf) as Hlen. rewrite Ht in Hlen.
    simpl in Hlen. lia. }
  assert (Hbound : forall s, reachable maxC iv s -> outstanding s <= maxC).
  { intros s Hr. destruct (reachable_sound maxC iv s) as [? ? ? ? ?]; [lia|done|lia]. }
  repeat split.
  - unfold fifo in Hqf. by rewrite Hqueue, app_nil_r in Hqf.
  - done.
  - done.
  - intros j fuel. apply Hbound, reachable_drain, reachable_issue.
  - done.
  - eapply fire_resumes_head; eauto.
  - eapply fire_resumes_head; eauto.
Qed.

(** Two slots, five callers. *)
Lemma C7_two_slots_five_callers :
  1 <= 2 /\
  (acquired (drain 5 (issue 5 (start 2 1000)))).*1 = seq 0 5 /\
  (acquired (drain 5 (issue 5 (start 2 1000)))).*2 = [0; 0; 1000; 1000; 2000].
Proof.
  split; [lia|]. split.
  - exact (proj1 (C7_acquisitions_complete_in_order 2 1000 3 ltac:(lia))).
  - reflexivity.
Defined.

(** With at least one slot, an acquisition always succeeds in the end: in
    any state of the loop, a caller that calls [wait()] and lets the timers
    fire gets its permit, and the loop stays sound. *)
Theorem acquisition_eventually_succeeds (maxC iv : Z) (c : nat) (s : loop) :
  1 <= maxC -> reachable maxC iv s ->
  has_acquired c (await c (wait c s)) = true /\
  outstanding (await c (wait c s)) <= maxC.
Proof.
  intros Hmax Hr.
  assert (Hs : sound maxC s) by (apply (reachable_sound maxC iv); [lia|done]).
  split; [by apply (await_wait_acquires maxC)|].
  assert (Hs' : sound maxC (await c (wait c s))).
  { unfold await. by apply sound_await_go, sound_wait. }
  destruct Hs' as [? ? ? ? ?]. lia.
Qed.

(** One slot, taken: the second caller gets it when the first timer fires. *)
Lemma acquisition_after_one_interval :
  1 <= 1 /\
  has_acquired 1 (await 1 (wait 1 (wait 0 (start 1 1000)))) = true /\
  acquired (await 1 (wait 1 (wait 0 (start 1 1000)))) = [(0%nat, 0); (1%nat, 1000)].
Proof.
  split; [lia|]. split; [|reflexivity].
  exact (proj1 (acquisition_eventually_succeeds 1 1000 1 (wait 0 (start 1 1000))
                  ltac:(lia) (reach_wait _ _ _ _ (reach_start 1 1000)))).
Defined.

(* --------------------------------------------------------------------- *)
(** ** The throttle *)

Lemma schedule_last due ts :
  Forall (fun t => t <= due) ts -> schedule due ts = ts ++ [due].
Proof.
  induction 1 as [|t ts Ht _ IH]; [done|]. simpl.
  destruct (Z.ltb_spec due t); [lia|]. by rewrite IH.
Qed.

Lemma paced_start maxC iv : 0 <= maxC -> paced maxC iv (start maxC iv).
Proof.
  intros H. split; simpl; try done; try lia.
Qed.

Lemma grants_proceed c s : grants (proceed c s) = grants s ++ [now s].
Proof. unfold grants, proceed; simpl. by rewrite fmap_app. Qed.

Lemma paced_proceed maxC iv c s :
  1 <= maxC -> paced maxC iv s -> running (limiter s) < maxC ->
  paced maxC iv (proceed c s).
Proof.
  intros Hmax [Hm Hi Hrel Hrun Hb Hpast Ht Hdone Hsp Hso] Hlt.
  assert (Hlen : length (grants (proceed c s)) = S (length (grants s)))
    by (rewrite grants_proceed, length_app; simpl; lia).
  split; rewrite ?grants_proceed; cbn [limiter maxConcurrent interval running
    now timers released proceed].
  - done.
  - done.
  - rewrite length_app. simpl. lia.
  - rewrite length_app. simpl. lia.
  - lia.
  - apply Forall_app. split; [done|]. apply Forall_singleton. lia.
  - rewrite Hi, Ht. rewrite drop_app_le by done. rewrite fmap_app. simpl.
    apply schedule_last. apply Forall_fmap.
    eapply Forall_impl; [apply Forall_drop, Hpast|]. simpl. intros t ?. lia.
  - intros i t Hi' Hl. apply (Hdone i t); [done|].
    rewrite lookup_app_l in Hl; [done|lia].
  - intros i t t' Hl Hl'.
    apply lookup_app_Some in Hl as [Hl|[Hge Hl]].
    + apply lookup_app_Some in Hl' as [Hl'|[Hge' Hl']]; [by eapply Hsp|].
      apply list_lookup_singleton_Some in Hl' as [Hz <-].
      apply (Hdone i t); [|done]. lia.
    + apply list_lookup_singleton_Some in Hl as [Hz <-].
      apply lookup_lt_Some in Hl'. rewrite length_app in Hl'. simpl in Hl'. lia.
  - intros i j t t' Hij Hl Hl'.
    apply lookup_app_Some in Hl' as [Hl'|[Hge' Hl']].
    + rewrite lookup_app_l in Hl by (apply lookup_lt_Some in Hl'; lia).
      by eapply Hso.
    + apply list_lookup_singleton_Some in Hl' as [Hz <-].
      apply lookup_app_Some in Hl as [Hl|[Hge Hl]].
      * by apply (proj1 (Forall_lookup _ _) Hpast i t).
      * apply list_lookup_singleton_Some in Hl as [_ <-]. lia.
Qed.

(** The first half of [release], before a queued caller is woken. *)
Lemma paced_expire maxC iv s due ts q :
  paced maxC iv s -> timers s = due :: ts ->
  paced maxC iv
    (mkLoop (mk (maxConcurrent (limiter s)) (interval (limiter s)) q
                (running (limiter s) - 1))
            (Z.max (now s) due) ts (acquired s) (S (released s))) /\
  running (limiter s) - 1 < maxC.
Proof.
  intros [Hm Hi Hrel Hrun Hb Hpast Ht Hdone Hsp Hso] Htm.
  rewrite Htm in Ht.
  destruct (drop (released s) (grants s)) as [|t0 rest] eqn:Hd; [done|].
  injection Ht as Hdue Hts.
  assert (Hl0 : grants s !! released s = Some t0).
  { pose proof (lookup_drop (grants s) (released s) 0) as H0.
    by rewrite Hd, Nat.add_0_r in H0. }
  pose proof (lookup_lt_Some _ _ _ Hl0) as Hlt.
  assert (Hrest : drop (S (released s)) (grants s) = rest).
  { rewrite (drop_S _ _ _ Hl0) in Hd. by injection Hd. }
  split; [|lia].
  split; unfold grants in *; cbn [limiter maxConcurrent interval running now timers
    released acquired].
  - done.
  - done.
  - lia.
  - lia.
  - lia.
  - eapply Forall_impl; [exact Hpast|]. simpl. intros t ?. lia.
  - by rewrite Hrest.
  - intros i t Hi' Hl.
    destruct (decide (i = released s)) as [->|Hne].
    + rewrite Hl0 in Hl. injection Hl as <-. lia.
    + assert (t + timeoutDelay iv <= now s) by (apply (Hdone i t); [lia|done]). lia.
  - done.
  - done.
Qed.

Lemma paced_tick maxC iv t s : paced maxC iv s -> paced maxC iv (tick t s).
Proof.
  intros [Hm Hi Hrel Hrun Hb Hpast Ht Hdone Hsp Hso].
  split; unfold grants in *; cbn [tick limiter maxConcurrent interval running now
    timers released acquired]; try done.
  - eapply Forall_impl; [exact Hpast|]. simpl. intros ? ?. lia.
  - intros i t0 Hi' Hl. specialize (Hdone i t0 Hi' Hl). lia.
Qed.

Lemma paced_wait maxC iv c s : 1 <= maxC -> paced maxC iv s -> paced maxC iv (wait c s).
Proof.
  intros Hmax Hp.
  destruct (Z.le_gt_cases (maxConcurrent (limiter s)) (running (limiter s))) as [Hle|Hlt].
  - rewrite wait_queues by done. destruct Hp. by split.
  - rewrite wait_proceeds by lia. apply paced_proceed; [done|done|].
    rewrite <- (paced_max _ _ _ Hp). lia.
Qed.

Lemma paced_fire maxC iv s s' :
  1 <= maxC -> paced maxC iv s -> fire s = Some s' -> paced maxC iv s'.
Proof.
  intros Hmax Hp Hfire. unfold fire in Hfire.
  destruct (timers s) as [|due ts] eqn:Et; [done|]. injection Hfire as <-.
  unfold release. cbn [limiter now timers acquired released].
  destruct (queue (limiter s)) as [|next q] eqn:Eq.
  - destruct (paced_expire maxC iv s due ts [] Hp Et) as [Hp' _]. exact Hp'.
  - destruct (paced_expire maxC iv s due ts q Hp Et) as [Hp' Hlt].
    apply paced_proceed; done.
Qed.

Lemma evolves_paced maxC iv s : 1 <= maxC -> evolves maxC iv s -> paced maxC iv s.
Proof.
  intros Hmax He. induction He.
  - apply paced_start. lia.
  - by apply paced_wait.
  - by eapply paced_fire.
  - by apply paced_tick.
Qed.

(** The throttle: however callers, timers and the clock interleave, the
    grant times never go back, and a permit is granted no sooner than one
    delay after the permit [maxConcurrent] grants before it: a millisecond
    at least, and the whole interval when the interval is one [setTimeout]
    keeps (from 1 to [TIMEOUT_MAX]); no window shorter than that sees more
    than [maxConcurrent] grants. *)
Theorem at_most_maxConcurrent_grants_per_interval (maxC iv : Z) (s : loop) :
  1 <= maxC -> evolves maxC iv s ->
  forall i j t t',
    grants s !! i = Some t -> grants s !! j = Some t' ->
    ((i <= j)%nat -> t <= t') /\
    ((i + Z.to_nat maxC <= j)%nat ->
       t + 1 <= t' /\ (1 <= iv <= 2147483647 -> t + iv <= t')).
Proof.
  intros Hmax He i j t t' Hi Hj.
  pose proof (evolves_paced maxC iv s Hmax He) as Hp. split.
  - intros Hij. by eapply (paced_sorted _ _ _ Hp).
  - intros Hij.
    destruct (lookup_lt_is_Some_2 (grants s) (i + Z.to_nat maxC)) as [tm Htm].
    { apply lookup_lt_Some in Hj. lia. }
    pose proof (paced_spaced _ _ _ Hp i t tm Hi Htm) as Hsp.
    pose proof (paced_sorted _ _ _ Hp _ _ _ _ Hij Htm Hj).
    unfold timeoutDelay, TIMEOUT_MAX in Hsp.
    destruct (Z.leb_spec 1 iv); destruct (Z.leb_spec iv 2147483647);
      simpl in Hsp; lia.
Qed.

Lemma evolves_issue maxC iv n : evolves maxC iv (issue n (start maxC iv)).
Proof. induction n; simpl; [apply evolves_start | by apply evolves_wait]. Qed.

Lemma evolves_drain maxC iv fuel s : evolves maxC iv s -> evolves maxC iv (drain fuel s).
Proof.
  revert s. induction fuel as [|f IH]; intros s Hs; simpl; [done|].
  destruct (fire s) as [s'|] eqn:E; [|done]. apply IH. by eapply evolves_fire.
Qed.

Lemma evolves_advance maxC iv t s : evolves maxC iv s -> evolves maxC iv (advance t s).
Proof.
  intros Hs. unfold advance.
  set (fuel := (length (queue (limiter s)) + length (timers s))%nat). clearbody fuel.
  apply (evolves_tick maxC iv t).
  revert s Hs. induction fuel as [|f IH]; intros s Hs; simpl; [done|].
  destruct (timers s) as [|due ts] eqn:Et; [done|].
  destruct (due <=? t); [|done].
  destruct (fire s) as [s'|] eqn:E; [|done]. apply IH. by eapply evolves_fire.
Qed.

Lemma evolves_await maxC iv c s : evolves maxC iv s -> evolves maxC iv (await c s).
Proof.
  intros Hs. unfold await.
  set (fuel := (length (queue (limiter s)) + length (timers s))%nat). clearbody fuel.
  revert s Hs. induction fuel as [|f IH]; intros s Hs; simpl.
  - by destruct (has_acquired c s).
  - destruct (has_acquired c s); [done|].
    destruct (fire s) as [s'|] eqn:E; [|done]. apply IH. by eapply evolves_fire.
Qed.

(** Two slots and a second between releases: five callers at once get their
    permits at 0, 0, 1000, 1000 and 2000.  One slot and an interval above
    [TIMEOUT_MAX]: the permits follow each other by a millisecond. *)
Lemma grants_of_five_callers :
  1 <= 2 /\
  grants (drain 5 (issue 5 (start 2 1000))) = [0; 0; 1000; 1000; 2000] /\
  0 + 1000 <= 1000 /\
  grants (drain 3 (issue 3 (start 1 2147483648))) = [0; 1; 2].
Proof.
  split; [lia|]. split; [reflexivity|]. split; [|reflexivity].
  exact (proj2 (proj2 (at_most_maxConcurrent_grants_per_interval 2 1000
                         (drain 5 (issue 5 (start 2 1000))) ltac:(lia)
                         (evolves_drain _ _ _ _ (evolves_issue 2 1000 5))
                         0%nat 2%nat 0 1000 eq_refl eq_refl)
                 ltac:(simpl; lia))
          ltac:(lia)).
Defined.

End RateLimiter.

(* ===================================================================== *)
(** * OpenMetadataAPI *)
(* ===================================================================== *)

Module Api.

(** [class OpenMetadataAPIError extends Error]: the one error class of the
    client; its kinds differ by message and status code. *)
Record OpenMetadataAPIError := mkError {
  message : string;
  statusCode : option Z
}.

(** What a promise has settled with, if it has. *)
Inductive outcome (A : Type) :=
| Resolved (a : A)
| Rejected (e : OpenMetadataAPIError)
| Pending.
Arguments Resolved {A} a.
Arguments Rejected {A} e.
Arguments Pending {A}.

(** The values that travel as [any]: JSON, and the promise of a [request]
    that was not awaited. *)
#[local] Unset Elimination Schemes.
Inductive value :=
| VUndefined
| VNull
| VBool (b : bool)
| VNum (n : Z)
| VStr (s : string)
| VArr (xs : list value)
| VObj (fields : list (string * value))
| VPromise (p : nat).
#[local] Set Elimination Schemes.

Definition truthy (v : value) : bool :=
  match v with
  | VUndefined | VNull => false
  | VBool b => b
  | VNum n => negb (n =? 0)
  | VStr s => negb (String.eqb s "")
  | VArr _ | VObj _ | VPromise _ => true
  end.

(** [typeof v === 'object'] *)
Definition isObject (v : value) : bool :=
  match v with
  | VNull | VArr _ | VObj _ | VPromise _ => true
  | _ => false
  end.

Fixpoint assoc (k : string) (fields : list (string * value)) : value :=
  match fields with
  | [] => VUndefined
  | (k', v) :: rest => if String.eqb k k' then v else assoc k rest
  end.

(** [v.k] for the property names the client reads ([data], [paging],
    [total], [after], [before], [entityLink]); none of them is a property of
    an array, a string or a promise. *)
Definition get (v : value) (k : string) : value :=
  match v with
  | VObj fields => assoc k fields
  | _ => VUndefined
  end.

(** What [catch (error)] can hold. *)
Inductive thrown :=
| AxiosError (response : option (Z * string)) (request : bool)
| ApiError (e : OpenMetadataAPIError)
| OtherError (msg : string).

Definition unknownError : OpenMetadataAPIError :=
  mkError "OpenMetadata API Error: Unknown error occurred" None.
Definition noResponse : OpenMetadataAPIError :=
  mkError "OpenMetadata API Error: No response received" None.
Definition notAuthenticated : OpenMetadataAPIError :=
  mkError "Not authenticated. Please authenticate first." None.
Definition invalidResponse : OpenMetadataAPIError :=
  mkError "Invalid API response" None.

(** [handleError(error): never]; the result is the error it throws. *)
Definition handleError (error : thrown) : OpenMetadataAPIError :=
  match error with
  | AxiosError (Some (statusCode, statusText)) _ =>
      let message := "Error " +:+ pretty statusCode +:+ ": " +:+ statusText in
      let message :=
        if statusCode =? 401 then
          message +:+ ". Please check your authentication token."
        else if statusCode =? 404 then
          message +:+ ". The requested resource was not found."
        else message in
      mkError message (Some statusCode)
  | AxiosError None true => noResponse
  | _ => unknownError
  end.

(** What a call of [axios] ends with.  The response is the one [axios]
    hands to [validateStatus]: it follows the redirects of the service by
    itself, so this is the answer at the end of them, over however many
    HTTP exchanges.  No timeout is configured, so a call may also never
    end. *)
Inductive reply :=
| Response (status : Z) (statusText : string) (data : value)
| NoResponse              (* the request left, no response came back *)
| NotSent                 (* the request could not be set up *)
| Silence.                (* nothing ever comes back: the call stays pending *)

(** [axios(...)]: resolves with the response for a 2xx status (the default
    [validateStatus]) and throws an [AxiosError] otherwise; [None] when the
    call never settles. *)
Definition axios (r : reply) : option ((Z * value) + thrown) :=
  match r with
  | Response status statusText data =>
      if (200 <=? status) && (status <? 300) then Some (inl (status, data))
      else Some (inr (AxiosError (Some (status, statusText)) true))
  | NoResponse => Some (inr (AxiosError None true))
  | NotSent => Some (inr (AxiosError None false))
  | Silence => None
  end.

(** The fields of the class other than [cache], with two observations.
    [network]: the calls of [axios] the client has made and waited for, in
    order (method, url, bearer token); a call that follows redirects is one
    entry.  [detached]: the [request] calls whose promise nobody awaited
    (caller, method, endpoint); the client sends each of them once it has
    passed the limiter, and nothing reads the answer, so they are kept
    apart from [network]. *)
Record fields := mkFields {
  baseUrl : string;
  webAppUrl : string;
  token : string;
  rateLimiter : RateLimiter.loop;
  detached : list (nat * string * string);
  network : list (string * string * string)
}.

Definition isAuthenticated (w : fields) : bool :=
  negb (String.eqb (token w) "").

Definition permitsTaken (w : fields) : nat :=
  length (RateLimiter.acquired (rateLimiter w)).

(** The remote service as [axios] meets it: method, url, bearer token, and
    what the call ends with. *)
Definition service := string -> string -> string -> reply.

(** [this.request(method, endpoint)] called and not awaited: the body runs up
    to its first [await], that is through the synchronous part of
    [rateLimiter.wait()], and the caller holds the promise; the call of
    [axios] is made when the event loop resumes the body, once the limiter
    has let it pass, and its answer is read by nobody. *)
Definition requestDetached (method endpoint : string) (now : Z) (w : fields)
    : value * fields :=
  let l := RateLimiter.advance now (rateLimiter w) in
  let c := RateLimiter.callers l in
  (VPromise c,
   mkFields (baseUrl w) (webAppUrl w) (token w) (RateLimiter.wait c l)
            (detached w ++ [(c, method, endpoint)]) (network w)).

(** [await this.request(method, endpoint, data)]; the body sent with a
    [PATCH] plays no part in what follows and is left out. *)
Definition request (server : service) (method endpoint : string) (now : Z)
    (w : fields) : outcome value * fields :=
  let l := RateLimiter.advance now (rateLimiter w) in
  let c := RateLimiter.callers l in
  let l := RateLimiter.await c (RateLimiter.wait c l) in
  if RateLimiter.has_acquired c l then
    let url := baseUrl w +:+ "/api/v1" +:+ endpoint in
    let w' := mkFields (baseUrl w) (webAppUrl w) (token w) l (detached w)
                       (network w ++ [(method, url, token w)]) in
    match axios (server method url (token w)) with
    | Some (inl (_, data)) => (Resolved data, w')
    | Some (inr error) => (Rejected (handleError error), w')
    | None => (Pending, w')
    end
  else (Pending,
        mkFields (baseUrl w) (webAppUrl w) (token w) l (detached w) (network w)).

(** [parseResponse<T>(response)] *)
Definition parseResponse (response : value) : outcome value :=
  if negb (truthy response) || negb (isObject response) then
    Rejected invalidResponse
  else
    let data :=
      if truthy (get response "data") then get response "data" else response in
    let paging := get response "paging" in
    if truthy paging then
      Resolved (VObj [("data", data);
                      ("paging", VObj [("total", get paging "total");
                                       ("after", get paging "after");
                                       ("before", get paging "before")])])
    else Resolved (VObj [("data", data)]).

(* --------------------------------------------------------------------- *)
(** ** The response cache *)

Definition CACHE_TTL : Z := 5 * 60 * 1000.

Record cached := mkCached { data : value; timestamp : Z }.

Section Cache.

(** Whatever a producer works on. *)
Context {W : Type}.

(** The object: its [cache], its other state, and the keys for which
    [cachedRequest] has called its producer, in order. *)
Record client := mkClient {
  this : W;
  cache : gmap string cached;
  produced : list string
}.

Definition fresh (now : Z) (e : cached) : bool := now - timestamp e <? CACHE_TTL.

(** [cachedRequest(key, requestFn)]; [now] is what [Date.now()] reads at the
    check and [now'] what it reads when the result is stored. *)
Definition cachedRequest (key : string) (requestFn : W -> outcome value * W)
    (now now' : Z) (c : client) : outcome value * client :=
  let miss :=
    let '(r, w) := requestFn (this c) in
    match r with
    | Resolved d =>
        (Resolved d,
         mkClient w (<[key := mkCached d now']> (cache c)) (produced c ++ [key]))
    | _ => (r, mkClient w (cache c) (produced c ++ [key]))
    end in
  match cache c !! key with
  | Some cachedData =>
      if fresh now cachedData then (Resolved (data cachedData), c) else miss
  | None => miss
  end.

(** No entry of [key] is younger than the time-to-live at [now]. *)
Definition stale_or_absent (now : Z) (key : string) (c : client) : Prop :=
  forall e, cache c !! key = Some e -> CACHE_TTL <= now - timestamp e.

(** A call of [cachedRequest], as data. *)
Record fetch := mkFetch {
  fetch_key : string;
  fetch_fn : W -> outcome value * W;
  fetch_now : Z;
  fetch_stored : Z
}.

Definition run (o : fetch) (c : client) : client :=
  (cachedRequest (fetch_key o) (fetch_fn o) (fetch_now o) (fetch_stored o) c).2.

Definition runs (os : list fetch) (c : client) : client :=
  foldl (fun c o => run o c) c os.

End Cache.
Arguments client : clear implicits.
Arguments fetch : clear implicits.

(** A producer that counts its calls, and one that counts them and rejects. *)
Definition counting (n : nat) : outcome value * nat :=
  (Resolved (VNum (Z.of_nat n)), S n).
Definition refusing (n : nat) : outcome value * nat :=
  (Rejected (mkError "refused" None), S n).

(* --------------------------------------------------------------------- *)
(** ** The methods *)

Definition OpenMetadataAPI := client fields.

Definition new (baseUrl webAppUrl : string) : OpenMetadataAPI :=
  mkClient (mkFields baseUrl webAppUrl "" (RateLimiter.start 5 1000) [] []) ∅ [].

(** [authenticate(jwtToken)]: the probe goes straight to [axios.get]. *)
Definition authenticate (server : service) (jwtToken : string)
    (api : OpenMetadataAPI) : outcome bool * OpenMetadataAPI :=
  let w := this api in
  let url := baseUrl w +:+ "/api/v1/system/config/jwks" in
  let sent tok :=
    mkClient (mkFields (baseUrl w) (webAppUrl w) tok (rateLimiter w)
                       (detached w) (network w ++ [("GET", url, jwtToken)]))
             (cache api) (produced api) in
  match axios (server "GET" url jwtToken) with
  | Some (inl (status, _)) =>
      if (200 <=? status) && (status <? 300) then (Resolved true, sent jwtToken)
      else (Resolved false, sent (token w))
  | Some (inr error) => (Rejected (handleError error), sent (token w))
  | None => (Pending, sent (token w))
  end.

Definition orEmpty (after : option string) : string := default "" after.

Definition tasksKey (limit : Z) (after : option string) : string :=
  "tasks_" +:+ pretty limit +:+ "_" +:+ orEmpty after.

Definition tasksEndpoint (limit : Z) (after : option string) : string :=
  let endpoint := "/tasks?limit=" +:+ pretty limit in
  if String.eqb (orEmpty after) "" then endpoint
  else endpoint +:+ "&after=" +:+ orEmpty after.

(** The producer of [getTasks]: the credential check, then [this.request]
    (not awaited) and [parseResponse] of its promise. *)
Definition getTasksFn (limit : Z) (after : option string) (now : Z)
    (w : fields) : outcome value * fields :=
  if negb (isAuthenticated w) then (Rejected notAuthenticated, w)
  else
    let endpoint := tasksEndpoint limit after in
    let '(response, w') := requestDetached "GET" endpoint now w in
    (parseResponse response, w').

(** [getTasks(limit = 20, after?)], the definition in force (the later one of
    the two in the class body). *)
Definition getTasks (limit : Z) (after : option string) (now now' : Z)
    (api : OpenMetadataAPI) : outcome value * OpenMetadataAPI :=
  cachedRequest (tasksKey limit after) (getTasksFn limit after now) now now' api.

(** [getTaskDetails(taskId)] *)
Definition getTaskDetails (server : service) (taskId : string) (now now' : Z)
    (api : OpenMetadataAPI) : outcome value * OpenMetadataAPI :=
  cachedRequest ("task_" +:+ taskId)
    (request server "GET" ("/tasks/" +:+ taskId) now) now now' api.

(** [updateTask(taskId, updateData)] *)
Definition updateTask (server : service) (taskId : string) (now : Z)
    (api : OpenMetadataAPI) : outcome value * OpenMetadataAPI :=
  let '(r, w) := request server "PATCH" ("/tasks/" +:+ taskId) now (this api) in
  (r, mkClient w (cache api) (produced api)).

(** [task.entityLink || null]; reading a property of [null] or [undefined]
    throws a [TypeError]. *)
Definition entityLinkOrNull (task : value) : value + thrown :=
  match task with
  | VUndefined | VNull =>
      inr (OtherError "Cannot read properties of null (reading 'entityLink')")
  | _ => let link := get task "entityLink" in
         inl (if truthy link then link else VNull)
  end.

(** [getTaskParentAsset(taskId)]: [request] is awaited in a [try] whose
    [catch] hands whatever was thrown to [handleError] once more. *)
Definition getTaskParentAsset (server : service) (taskId : string) (now : Z)
    (api : OpenMetadataAPI) : outcome value * OpenMetadataAPI :=
  let '(r, w) := request server "GET" ("/tasks/" +:+ taskId) now (this api) in
  let api' := mkClient w (cache api) (produced api) in
  match r with
  | Resolved task =>
      match entityLinkOrNull task with
      | inl link => (Resolved link, api')
      | inr error => (Rejected (handleError error), api')
      end
  | Rejected e => (Rejected (handleError (ApiError e)), api')
  | Pending => (Pending, api')
  end.

(* --------------------------------------------------------------------- *)
(** ** A session *)

(** A service that answers every call with 200 and an empty page. *)
Definition okServer : service := fun _ _ _ =>
  Response 200 "OK"
    (VObj [("data", VArr []); ("paging", VObj [("total", VNum 0)])]).

(** A service that answers every call with [status]. *)
Definition failingServer (status : Z) (statusText : string) : service :=
  fun _ _ _ => Response status statusText VNull.

(** A service from which no response comes back: every call fails without
    one. *)
Definition silentServer : service := fun _ _ _ => NoResponse.

(** Sign in, list the tasks at time 0, then authenticate with the empty
    string: the probe succeeds and the stored token is the empty string. *)
Definition signedIn : OpenMetadataAPI :=
  (authenticate okServer "jwt" (new "http://api" "http://web")).2.
Definition listed : OpenMetadataAPI := (getTasks 20 None 0 0 signedIn).2.
Definition signedOut : OpenMetadataAPI := (authenticate okServer "" listed).2.

(* --------------------------------------------------------------------- *)
(** ** The other methods *)

(** [getAsset(assetId)], the definition in force. *)
Definition getAsset (server : service) (assetId : string) (now now' : Z)
    (api : OpenMetadataAPI) : outcome value * OpenMetadataAPI :=
  cachedRequest ("asset_" +:+ assetId)
    (request server "GET" ("/entities/" +:+ assetId) now) now now' api.

Definition lineageKey (assetId : string) (upstreamDepth downstreamDepth : Z)
    : string :=
  "asset_lineage_" +:+ assetId +:+ "_" +:+ pretty upstreamDepth +:+ "_" +:+
  pretty downstreamDepth.

Definition lineageEndpoint (assetId : string) (upstreamDepth downstreamDepth : Z)
    : string :=
  "/lineage/entities/" +:+ assetId +:+ "?upstreamDepth=" +:+
  pretty upstreamDepth +:+ "&downstreamDepth=" +:+ pretty downstreamDepth.

(** [getAssetLineage(assetId, upstreamDepth = 1, downstreamDepth = 1)] *)
Definition getAssetLineage (server : service) (assetId : string)
    (upstreamDepth downstreamDepth : Z) (now now' : Z) (api : OpenMetadataAPI)
    : outcome value * OpenMetadataAPI :=
  cachedRequest (lineageKey assetId upstreamDepth downstreamDepth)
    (request server "GET" (lineageEndpoint assetId upstreamDepth downstreamDepth)
       now)
    now now' api.

Definition searchKey (query index : string) (from size : Z) : string :=
  "search_" +:+ query +:+ "_" +:+ index +:+ "_" +:+ pretty from +:+ "_" +:+
  pretty size.

(** The endpoint of a search; [encodeURIComponent] is the host's. *)
Definition searchEndpoint (encodeURIComponent : string -> string)
    (query index : string) (from size : Z) : string :=
  "/search/query?q=" +:+ encodeURIComponent query +:+ "&index=" +:+ index +:+
  "&from=" +:+ pretty from +:+ "&size=" +:+ pretty size.

(** [searchAssets(query, index = 'all_entity_search_index', from = 0,
    size = 10)] *)
Definition searchAssets (encodeURIComponent : string -> string)
    (server : service) (query index : string) (from size : Z) (now now' : Z)
    (api : OpenMetadataAPI) : outcome value * OpenMetadataAPI :=
  cachedRequest (searchKey query index from size)
    (request server "GET" (searchEndpoint encodeURIComponent query index from size)
       now)
    now now' api.

(** An optional number in a template literal, and in a condition. *)
Definition shown (n : option Z) : string :=
  match n with Some z => pretty z | None => "undefined" end.
Definition given (n : option Z) : bool :=
  match n with Some z => negb (z =? 0) | None => false end.

Definition dataQualityEndpoint (testCaseId : string) (startTs endTs : option Z)
    : string :=
  let endpoint := "/dataQuality/testCases/" +:+ testCaseId +:+ "/testCaseResults" in
  if given startTs && given endTs then
    endpoint +:+ "?startTs=" +:+ shown startTs +:+ "&endTs=" +:+ shown endTs
  else endpoint.

Definition dataQualityKey (testCaseId : string) (startTs endTs : option Z)
    : string :=
  "data_quality_" +:+ testCaseId +:+ "_" +:+ shown startTs +:+ "_" +:+ shown endTs.

(** [getDataQualityTestResults(testCaseId, startTs?, endTs?)] *)
Definition getDataQualityTestResults (server : service) (testCaseId : string)
    (startTs endTs : option Z) (now now' : Z) (api : OpenMetadataAPI)
    : outcome value * OpenMetadataAPI :=
  cachedRequest (dataQualityKey testCaseId startTs endTs)
    (request server "GET" (dataQualityEndpoint testCaseId startTs endTs) now)
    now now' api.

Definition invalidBotToken : OpenMetadataAPIError :=
  mkError "Invalid response format for ingestion bot token" None.

(** The producer of [getIngestionBotToken]: the credential check, then, in a
    [try], [this.request] (not awaited), the test of its promise for a
    [botToken.token], and the [throw] that the [catch] of the same [try]
    hands to [handleError]. *)
Definition getIngestionBotTokenFn (now : Z) (w : fields)
    : outcome value * fields :=
  if negb (isAuthenticated w) then (Rejected notAuthenticated, w)
  else
    let '(response, w') := requestDetached "GET" "/bots/name/ingestion-bot" now w in
    if truthy response && truthy (get response "botToken")
       && truthy (get (get response "botToken") "token")
    then (Resolved (get (get response "botToken") "token"), w')
    else (Rejected (handleError (ApiError invalidBotToken)), w').

(** [getIngestionBotToken()], the definition in force. *)
Definition getIngestionBotToken (now now' : Z) (api : OpenMetadataAPI)
    : outcome value * OpenMetadataAPI :=
  cachedRequest "ingestion_bot_token" (getIngestionBotTokenFn now) now now' api.

(** A call of one of the methods above, with what the world answers. *)
Inductive call :=
| Authenticate (server : service) (jwtToken : string)
| GetTasks (limit : Z) (after : option string) (now now' : Z)
| GetTaskDetails (server : service) (taskId : string) (now now' : Z)
| UpdateTask (server : service) (taskId : string) (now : Z)
| GetTaskParentAsset (server : service) (taskId : string) (now : Z)
| GetAsset (server : service) (assetId : string) (now now' : Z)
| GetAssetLineage (server : service) (assetId : string)
    (upstreamDepth downstreamDepth : Z) (now now' : Z)
| SearchAssets (encodeURIComponent : string -> string) (server : service)
    (query index : string) (from size : Z) (now now' : Z)
| GetDataQualityTestResults (server : service) (testCaseId : string)
    (startTs endTs : option Z) (now now' : Z)
| GetIngestionBotToken (now now' : Z).

Definition perform (api : OpenMetadataAPI) (c : call) : OpenMetadataAPI :=
  match c with
  | Authenticate server jwtToken => (authenticate server jwtToken api).2
  | GetTasks limit after now now' => (getTasks limit after now now' api).2
  | GetTaskDetails server taskId now now' =>
      (getTaskDetails server taskId now now' api).2
  | UpdateTask server taskId now => (updateTask server taskId now api).2
  | GetTaskParentAsset server taskId now =>
      (getTaskParentAsset server taskId now api).2
  | GetAsset server assetId now now' => (getAsset server assetId now now' api).2
  | GetAssetLineage server assetId up down now now' =>
      (getAssetLineage server assetId up down now now' api).2
  | SearchAssets enc server query index from size now now' =>
      (searchAssets enc server query index from size now now' api).2
  | GetDataQualityTestResults server testCaseId startTs endTs now now' =>
      (getDataQualityTestResults server testCaseId startTs endTs now now' api).2
  | GetIngestionBotToken now now' => (getIngestionBotToken now now' api).2
  end.

(** A client from its construction through a sequence of calls. *)
Definition session (baseUrl webAppUrl : string) (calls : list call)
    : OpenMetadataAPI :=
  foldl perform (new baseUrl webAppUrl) calls.

(** A service that answers every call with a task of the given status. *)
Definition taskServer (status : string) : service := fun _ _ _ =>
  Response 200 "OK" (VObj [("id", VStr "t1"); ("status", VStr status)]).

(** A service that answers a search with the url it was asked for. *)
Definition echoServer : service := fun _ url _ => Response 200 "OK" (VStr url).

(** The key of [getIngestionBotToken]. *)
Definition botKey : string := "ingestion_bot_token".

(** The times at which the client's limiter has let requests through. *)
Definition permits (api : OpenMetadataAPI) : list Z :=
  RateLimiter.grants (rateLimiter (this api)).

(* --------------------------------------------------------------------- *)
(** ** Cache keys *)

(** No underscore occurs in the string. *)
Fixpoint plain (s : string) : bool :=
  match s with
  | EmptyString => true
  | String a s' => negb (String.eqb (String a "") "_") && plain s'
  end.

(* --------------------------------------------------------------------- *)
(** ** Properties of the response cache *)

Section CacheFacts.
Context {W : Type}.
Implicit Types (c : client W) (f : W -> outcome value * W) (e : cached).

Lemma cachedRequest_hit key f now now' c e :
  cache c !! key = Some e -> now - timestamp e < CACHE_TTL ->
  cachedRequest key f now now' c = (Resolved (data e), c).
Proof.
  intros He Hage. unfold cachedRequest, fresh. rewrite He.
  destruct (Z.ltb_spec (now - timestamp e) CACHE_TTL); [done|lia].
Qed.

Lemma cachedRequest_miss key f now now' c :
  stale_or_absent now key c ->
  cachedRequest key f now now' c =
    match f (this c) with
    | (Resolved d, w) =>
        (Resolved d,
         mkClient w (<[key := mkCached d now']> (cache c)) (produced c ++ [key]))
    | (r, w) => (r, mkClient w (cache c) (produced c ++ [key]))
    end.
Proof.
  intros Hs. unfold cachedRequest, fresh.
  destruct (cache c !! key) as [e|] eqn:He.
  - specialize (Hs e He).
    destruct (Z.ltb_spec (now - timestamp e) CACHE_TTL); [lia|].
    by destruct (f (this c)) as [[]].
  - by destruct (f (this c)) as [[]].
Qed.

Lemma cachedRequest_dom key f now now' c :
  dom (cache c) ⊆ dom (cache (cachedRequest key f now now' c).2).
Proof.
  unfold cachedRequest.
  destruct (cache c !! key) as [e|]; [destruct (fresh now e); [done|]|];
    destruct (f (this c)) as [[d|err|] w]; simpl; try done;
    rewrite dom_insert_L; set_solver.
Qed.

Lemma run_keeps_fresh (o : fetch W) c k e :
  cache c !! k = Some e -> fetch_now o - timestamp e < CACHE_TTL ->
  cache (run o c) !! k = Some e.
Proof.
  intros He Hage. unfold run.
  destruct (decide (fetch_key o = k)) as [->|Hne].
  - by erewrite cachedRequest_hit.
  - unfold cachedRequest.
    destruct (cache c !! fetch_key o) as [e'|];
      [destruct (fresh (fetch_now o) e'); [done|]|];
      destruct (fetch_fn o (this c)) as [[d|err|] w]; simpl; try done;
      by rewrite lookup_insert_ne.
Qed.

Lemma runs_keep_fresh (os : list (fetch W)) c k e :
  cache c !! k = Some e ->
  Forall (fun o => fetch_now o - timestamp e < CACHE_TTL) os ->
  cache (runs os c) !! k = Some e.
Proof.
  intros He Hos. revert c He. induction Hos as [|o os Ho _ IH]; intros c He.
  - done.
  - simpl. apply IH. by apply run_keeps_fresh.
Qed.

Lemma runs_dom (os : list (fetch W)) c : dom (cache c) ⊆ dom (cache (runs os c)).
Proof.
  revert c. induction os as [|o os IH]; intros c; simpl; [done|].
  etrans; [|apply IH]. apply cachedRequest_dom.
Qed.

(** C3, amended to a producer whose first call resolves.  Three calls of
    [cachedRequest] for one key, one after the other, on a client with no
    entry younger than the time-to-live for it, the producer's first call
    returning [v1].  The first call is made at [t1] and
    stores at [s1 >= t1].  A second call at [t2] with [t2 - t1] below the
    time-to-live does not call the producer: it was called once, and both
    calls return [v1].  A third call at [t3], when the age [t3 - s1] of the
    entry has reached the time-to-live, calls the producer a second time and
    stores what it returns under the timestamp [s3] read then. *)
Theorem C3_producer_called_once_within_ttl key f c (t1 s1 t2 s2 t3 s3 : Z) v1 w1 :
  stale_or_absent t1 key c ->
  f (this c) = (Resolved v1, w1) ->
  t1 <= s1 ->
  t2 - t1 < CACHE_TTL ->
  CACHE_TTL <= t3 - s1 ->
  let first := cachedRequest key f t1 s1 c in
  let second := cachedRequest key f t2 s2 first.2 in
  let third := cachedRequest key f t3 s3 second.2 in
  first.1 = Resolved v1 /\
  second.1 = Resolved v1 /\
  produced second.2 = produced c ++ [key] /\
  produced third.2 = produced c ++ [key; key] /\
  third.1 = (f w1).1 /\
  forall v3, (f w1).1 = Resolved v3 ->
    cache third.2 !! key = Some (mkCached v3 s3).
Proof.
  intros Hstale Hf Hs1 Ht2 Ht3 first second third.
  assert (Hfirst : first = (Resolved v1,
            mkClient w1 (<[key := mkCached v1 s1]> (cache c)) (produced c ++ [key]))).
  { unfold first. rewrite cachedRequest_miss by done. by rewrite Hf. }
  assert (Hsecond : second = (Resolved v1, first.2)).
  { unfold second. rewrite Hfirst; simpl.
    rewrite (cachedRequest_hit _ _ _ _ _ (mkCached v1 s1)); simpl.
    - done.
    - apply lookup_insert_eq.
    - lia. }
  assert (Hthird : third =
            match f w1 with
            | (Resolved d, w) =>
                (Resolved d,
                 mkClient w (<[key := mkCached d s3]> (cache first.2))
                          (produced first.2 ++ [key]))
            | (r, w) => (r, mkClient w (cache first.2) (produced first.2 ++ [key]))
            end).
  { unfold third. rewrite Hsecond; simpl. rewrite cachedRequest_miss.
    - by rewrite Hfirst.
    - intros e. rewrite Hfirst; simpl. rewrite lookup_insert_eq.
      intros [= <-]. simpl. lia. }
  rewrite Hthird, Hsecond, Hfirst; simpl.
  repeat split.
  - destruct (f w1) as [[d|err|] w]; simpl; by rewrite <- app_assoc.
  - by destruct (f w1) as [[d|err|] w].
  - intros v3. destruct (f w1) as [[d|err|] w]; simpl; intros [= ->].
    apply lookup_insert_eq.
Qed.

(** C9, amended.  The class has no [invalidate] and no [clearAll]: its cache
    is reached through [cachedRequest] alone, which never deletes an entry.
    After any calls of [cachedRequest], for any keys and producers, made
    while the entry of [k] is younger than the time-to-live, that entry is
    still the one stored and the next [cachedRequest] for [k] returns its
    payload without calling the producer; the producer of [k] is called
    again once the age of the entry has reached the time-to-live. *)
Theorem C9_entries_leave_by_expiry_only (os : list (fetch W)) c k e f :
  cache c !! k = Some e ->
  Forall (fun o => fetch_now o - timestamp e < CACHE_TTL) os ->
  dom (cache c) ⊆ dom (cache (runs os c)) /\
  cache (runs os c) !! k = Some e /\
  (forall now now', now - timestamp e < CACHE_TTL ->
     cachedRequest k f now now' (runs os c) = (Resolved (data e), runs os c)) /\
  (forall now now', CACHE_TTL <= now - timestamp e ->
     produced (cachedRequest k f now now' (runs os c)).2
       = produced (runs os c) ++ [k]).
Proof.
  intros He Hos.
  assert (Hk : cache (runs os c) !! k = Some e) by (by apply runs_keep_fresh).
  repeat split.
  - apply runs_dom.
  - done.
  - intros now now' Hage. by apply cachedRequest_hit.
  - intros now now' Hage. rewrite cachedRequest_miss.
    + by destruct (f (this (runs os c))) as [[d|err|] w].
    + intros e'. rewrite Hk. intros [= <-]. done.
Qed.

End CacheFacts.

(** C3 on the clock of the specification: calls at 0:00 and 4:59 call the
    producer once, a call at 5:01 calls it again. *)
Lemma C3_five_minutes :
  let c := mkClient 0%nat ∅ [] in
  let first := cachedRequest "k" counting 0 0 c in
  let second := cachedRequest "k" counting 299000 299000 first.2 in
  let third := cachedRequest "k" counting 301000 301000 second.2 in
  first.1 = Resolved (VNum 0) /\
  second.1 = Resolved (VNum 0) /\
  produced second.2 = ["k"] /\
  produced third.2 = ["k"; "k"] /\
  third.1 = Resolved (VNum 1) /\
  cache third.2 !! "k" = Some (mkCached (VNum 1) 301000).
Proof.
  pose proof (C3_producer_called_once_within_ttl "k" counting
                (mkClient 0%nat ∅ []) 0 0 299000 299000 301000 301000
                (VNum 0) 1%nat) as H.
  cbv zeta in *.
  destruct H as (H1 & H2 & H3 & H4 & H5 & H6).
  - intros e He. cbn [cache] in He. by rewrite lookup_empty in He.
  - reflexivity.
  - lia.
  - unfold CACHE_TTL. lia.
  - unfold CACHE_TTL. lia.
  - repeat split; try done; by apply H6.
Defined.

(** C3, as the specification states it, for a producer that rejects: nothing
    is stored, and a second call one second later calls the producer again.
    Listing the tasks without a credential is such a fetch. *)
Lemma C3_rejected_fetch_is_repeated :
  let first := cachedRequest "k" refusing 0 0 (mkClient 0%nat ∅ []) in
  let second := cachedRequest "k" refusing 1000 1000 first.2 in
  produced second.2 = ["k"; "k"] /\
  this second.2 = 2%nat /\
  cache second.2 !! "k" = None /\
  produced (getTasks 20 None 1000 1000
              (getTasks 20 None 0 0 (new "http://api" "http://web")).2).2
    = ["tasks_20_"; "tasks_20_"].
Proof. repeat split; vm_compute; reflexivity. Qed.

(** C9, as the specification states it, on the cache [{k: ("v", 0)}] at time
    1: whatever [cachedRequest] calls are made then, the next
    [cachedRequest] for [k] does not call its producer. No operation does
    what [invalidate] or [clearAll] would. *)
Lemma C9_no_operation_invalidates :
  ~ (exists os : list (fetch nat),
       let c := runs os (mkClient 0%nat {["k" := mkCached (VStr "v") 0]} []) in
       Forall (fun o => fetch_now o = 1) os /\
       produced (cachedRequest "k" counting 1 1 c).2 = produced c ++ ["k"]).
Proof.
  intros (os & Hos & Hp).
  set (c0 := mkClient 0%nat {["k" := mkCached (VStr "v") 0]} []) in *.
  assert (Hk : cache (runs os c0) !! "k" = Some (mkCached (VStr "v") 0)).
  { apply runs_keep_fresh; [apply lookup_singleton_eq|].
    eapply Forall_impl; [exact Hos|]. intros o ->. done. }
  rewrite (cachedRequest_hit _ _ _ _ _ _ Hk) in Hp by done.
  simpl in Hp. apply (f_equal length) in Hp. rewrite length_app in Hp.
  simpl in Hp. lia.
Qed.

(** The entry of [k] survives other fetches and is served until it is five
    minutes old. *)
Lemma C9_entry_kept :
  let c := mkClient 0%nat {["k" := mkCached (VStr "v") 0]} [] in
  let os := [mkFetch "j" counting 1000 1000; mkFetch "k" counting 2000 2000] in
  cache (runs os c) !! "k" = Some (mkCached (VStr "v") 0) /\
  (cachedRequest "k" counting 299999 299999 (runs os c)).1 = Resolved (VStr "v") /\
  produced (cachedRequest "k" counting 300000 300000 (runs os c)).2 = ["j"; "k"].
Proof.
  cbv zeta.
  set (c := mkClient 0%nat {["k" := mkCached (VStr "v") 0]} []).
  set (os := [mkFetch "j" counting 1000 1000; mkFetch "k" counting 2000 2000]).
  assert (He : cache c !! "k" = Some (mkCached (VStr "v") 0))
    by apply lookup_singleton_eq.
  assert (Hos : Forall (fun o : fetch nat =>
                  fetch_now o - timestamp (mkCached (VStr "v") 0) < CACHE_TTL) os).
  { repeat constructor. }
  destruct (C9_entries_leave_by_expiry_only os c "k" _ counting He Hos)
    as (_ & H2 & H3 & H4).
  split; [exact H2|]. split.
  - by rewrite (H3 299999 299999).
  - rewrite (H4 300000 300000) by done. reflexivity.
Defined.

(* --------------------------------------------------------------------- *)
(** ** Properties of the methods *)

Lemma getTasksFn_unauthenticated limit after now w :
  token w = "" -> getTasksFn limit after now w = (Rejected notAuthenticated, w).
Proof. intros H. unfold getTasksFn, isAuthenticated. by rewrite H. Qed.

Lemma getTasksFn_authenticated limit after now w :
  token w <> "" -> exists p w', getTasksFn limit after now w = (Resolved p, w').
Proof.
  intros H. unfold getTasksFn, isAuthenticated.
  destruct (String.eqb_spec (token w) ""); [done|]. simpl. eauto.
Qed.

Lemma getTasks_hit limit after now now' (api : OpenMetadataAPI) e :
  cache api !! tasksKey limit after = Some e ->
  now - timestamp e < CACHE_TTL ->
  getTasks limit after now now' api = (Resolved (data e), api).
Proof. intros. unfold getTasks. by apply cachedRequest_hit. Qed.

Lemma signedOut_has_no_token : token (this signedOut) = "".
Proof. reflexivity. Qed.

Lemma signedOut_is_served :
  (getTasks 20 None 1000 1000 signedOut).1 = (getTasks 20 None 0 0 signedIn).1 /\
  (getTasks 20 None 1000 1000 signedOut).1 = Resolved (VObj [("data", VPromise 0)]).
Proof. split; vm_compute; reflexivity. Qed.

(** C2, as the specification states it, in the session [signedOut]: no
    credential is stored, and listing the tasks does not reject. *)
Lemma C2_listing_without_credential_served_from_cache :
  token (this signedOut) = "" /\
  (getTasks 20 None 1000 1000 signedOut).1 <> Rejected notAuthenticated.
Proof.
  split; [apply signedOut_has_no_token|].
  rewrite (proj2 signedOut_is_served). discriminate.
Qed.

(** C2, amended.  While no credential is stored, listing the tasks makes no
    network attempt and takes no permit of the rate limiter (the fields of
    the client other than the cache are left as they were); it rejects with
    the not-authenticated error when the cache holds no entry younger than
    the time-to-live for the derived key, and returns the cached payload
    when it holds one. *)
Theorem C2_unauthenticated_listing limit after now now' (api : OpenMetadataAPI) :
  token (this api) = "" ->
  let result := getTasks limit after now now' api in
  this result.2 = this api /\
  network (this result.2) = network (this api) /\
  permitsTaken (this result.2) = permitsTaken (this api) /\
  cache result.2 = cache api /\
  (stale_or_absent now (tasksKey limit after) api ->
     result.1 = Rejected notAuthenticated) /\
  (forall e, cache api !! tasksKey limit after = Some e ->
     now - timestamp e < CACHE_TTL -> result.1 = Resolved (data e)).
Proof.
  intros Htok result.
  assert (Hcases :
    result = (Rejected notAuthenticated,
              mkClient (this api) (cache api)
                       (produced api ++ [tasksKey limit after])) /\
    stale_or_absent now (tasksKey limit after) api
    \/ exists e, cache api !! tasksKey limit after = Some e /\
                 now - timestamp e < CACHE_TTL /\
                 result = (Resolved (data e), api)).
  { destruct (cache api !! tasksKey limit after) as [e|] eqn:He.
    - destruct (Z.lt_ge_cases (now - timestamp e) CACHE_TTL) as [Hlt|Hge].
      + right. exists e. repeat split; [done|]. by apply getTasks_hit.
      + left. assert (Hs : stale_or_absent now (tasksKey limit after) api).
        { intros e'. rewrite He. by intros [= <-]. }
        split; [|done]. unfold result, getTasks.
        rewrite cachedRequest_miss by done.
        by rewrite getTasksFn_unauthenticated.
    - left. assert (Hs : stale_or_absent now (tasksKey limit after) api).
      { intros e'. by rewrite He. }
      split; [|done]. unfold result, getTasks.
      rewrite cachedRequest_miss by done.
      by rewrite getTasksFn_unauthenticated. }
  destruct Hcases as [[-> Hs]|(e & He & Hage & ->)]; simpl.
  - repeat split; try done.
    intros e He Hage. specialize (Hs e He). lia.
  - repeat split; try done.
    + intros Hs. specialize (Hs e He). lia.
    + intros e'. rewrite He. by intros [= <-].
Qed.

(** A fresh client has no credential and an empty cache: listing rejects. *)
Lemma C2_fresh_client_rejects :
  let api := new "http://api" "http://web" in
  let result := getTasks 20 None 0 0 api in
  token (this api) = "" /\
  result.1 = Rejected notAuthenticated /\
  permitsTaken (this result.2) = 0%nat /\
  network (this result.2) = [].
Proof.
  cbv zeta. split; [reflexivity|].
  destruct (C2_unauthenticated_listing 20 None 0 0 (new "http://api" "http://web")
              eq_refl) as (_ & Hn & Hp & _ & Hrej & _).
  split; [|split].
  - apply Hrej. intros e He. cbn [cache new] in He. by rewrite lookup_empty in He.
  - rewrite Hp. reflexivity.
  - rewrite Hn. reflexivity.
Defined.

(** C10.  When the cache holds an entry younger than the time-to-live for
    the key derived from the arguments, listing the tasks returns the cached
    payload and leaves the client as it was, whatever the stored token: the
    credential is not checked and no permit is taken.  Listing rejects only
    with the not-authenticated error, and only when no token is stored and
    the cache holds no such entry. *)
Theorem C10_cached_listing_skips_credential limit after now now'
    (api : OpenMetadataAPI) :
  (forall e, cache api !! tasksKey limit after = Some e ->
     now - timestamp e < CACHE_TTL ->
     getTasks limit after now now' api = (Resolved (data e), api)) /\
  (forall err, (getTasks limit after now now' api).1 = Rejected err ->
     err = notAuthenticated /\
     isAuthenticated (this api) = false /\
     stale_or_absent now (tasksKey limit after) api).
Proof.
  split.
  - intros e He Hage. by apply getTasks_hit.
  - intros err Hrej.
    assert (Hs : stale_or_absent now (tasksKey limit after) api).
    { intros e He. destruct (Z.lt_ge_cases (now - timestamp e) CACHE_TTL); [|done].
      rewrite (getTasks_hit _ _ _ _ _ e) in Hrej by done. discriminate. }
    unfold getTasks in Hrej. rewrite cachedRequest_miss in Hrej by done.
    destruct (decide (token (this api) = "")) as [Htok|Htok].
    + rewrite getTasksFn_unauthenticated in Hrej by done.
      injection Hrej as <-. unfold isAuthenticated. by rewrite Htok.
    + destruct (getTasksFn_authenticated limit after now (this api) Htok)
        as (p & w' & Hfn).
      rewrite Hfn in Hrej. discriminate.
Qed.

(** An unauthenticated caller receives what an authenticated call cached. *)
Lemma C10_signed_out_caller_served :
  isAuthenticated (this signedOut) = false /\
  getTasks 20 None 1000 1000 signedOut
    = ((getTasks 20 None 0 0 signedIn).1, signedOut).
Proof.
  split; [reflexivity|].
  apply (proj1 (C10_cached_listing_skips_credential 20 None 1000 1000 signedOut)
           (mkCached (VObj [("data", VPromise 0)]) 0)).
  - vm_compute. reflexivity.
  - vm_compute. reflexivity.
Defined.

Lemma append_nil_r (s : string) : s +:+ "" = s.
Proof.
  induction s as [|a s IH]; [done|].
  change (String a (s +:+ "") = String a s). by rewrite IH.
Qed.

Lemma append_assoc (s1 s2 s3 : string) : (s1 +:+ s2) +:+ s3 = s1 +:+ s2 +:+ s3.
Proof.
  induction s1 as [|a s1 IH]; [done|].
  change (String a ((s1 +:+ s2) +:+ s3) = String a (s1 +:+ s2 +:+ s3)).
  by rewrite IH.
Qed.



(** [getTaskDetails] lets the error of [request] through as it is. *)
Lemma getTaskDetails_raises_what_request_raises server taskId now now'
    (api : OpenMetadataAPI) :
  stale_or_absent now ("task_" +:+ taskId) api ->
  (getTaskDetails server taskId now now' api).1
    = (request server "GET" ("/tasks/" +:+ taskId) now (this api)).1.
Proof.
  intros Hs. unfold getTaskDetails. rewrite cachedRequest_miss by done.
  by destruct (request _ _ _ _ _) as [[d|err|] w].
Qed.

(** The methods that do not go through [cachedRequest] leave the cache as it
    is. *)
Lemma uncached_methods_leave_cache server s now (api : OpenMetadataAPI) :
  cache (authenticate server s api).2 = cache api /\
  cache (updateTask server s now api).2 = cache api /\
  cache (getTaskParentAsset server s now api).2 = cache api.
Proof.
  unfold authenticate, updateTask, getTaskParentAsset. repeat split.
  - destruct (axios _) as [[[status d]|error]|]; [|done..].
    by destruct ((200 <=? status) && (status <? 300)).
  - by destruct (request _ _ _ _ _).
  - destruct (request _ _ _ _ _) as [[task|err|] w]; try done.
    by destruct (entityLinkOrNull task).
Qed.

Lemma getTaskParentAsset_rejects_generic server taskId now (api : OpenMetadataAPI) e :
  (request server "GET" ("/tasks/" +:+ taskId) now (this api)).1 = Rejected e ->
  (getTaskParentAsset server taskId now api).1 = Rejected unknownError.
Proof.
  unfold getTaskParentAsset.
  destruct (request server "GET" ("/tasks/" +:+ taskId) now (this api)) as [r w].
  simpl. by intros ->.
Qed.

(** C5 at [getTaskParentAsset]: the service answers 404 (or 401, or not at
    all); [request] raises the classified error, [getTaskParentAsset] hands
    it to [handleError] a second time, and what the caller gets is the
    generic error, with no status code. *)
Theorem C5_getTaskParentAsset_raises_generic_error :
  (request (failingServer 404 "Not Found") "GET" "/tasks/t1" 0 (this signedIn)).1
    = Rejected (mkError "Error 404: Not Found. The requested resource was not found."
                        (Some 404)) /\
  (getTaskParentAsset (failingServer 404 "Not Found") "t1" 0 signedIn).1
    = Rejected unknownError /\
  (getTaskParentAsset (failingServer 401 "Unauthorized") "t1" 0 signedIn).1
    = Rejected unknownError /\
  (request silentServer "GET" "/tasks/t1" 0 (this signedIn)).1
    = Rejected noResponse /\
  (getTaskParentAsset silentServer "t1" 0 signedIn).1 = Rejected unknownError /\
  statusCode unknownError = None.
Proof. repeat split; vm_compute; reflexivity. Qed.

(* --------------------------------------------------------------------- *)
(** ** Properties of the other methods *)

(* ---- parseResponse ---- *)



(* ---- authenticate ---- *)

(** [authenticate] makes one call of [axios], the probe, with the candidate
    token, past the rate limiter and the cache.  It resolves with [true]
    exactly when the probe ends with a response of 2xx status, and then
    stores the candidate, so that the client is authenticated unless the
    candidate is the empty string; it never resolves with [false]; it stays
    pending exactly when the probe never ends; when it rejects, with the
    error [handleError] builds, or stays pending, the token stored before is
    kept. *)
Theorem authenticate_stores_the_token_on_2xx (server : service)
    (jwtToken : string) (api : OpenMetadataAPI) :
  let url := baseUrl (this api) +:+ "/api/v1/system/config/jwks" in
  let result := authenticate server jwtToken api in
  cache result.2 = cache api /\
  rateLimiter (this result.2) = rateLimiter (this api) /\
  network (this result.2) = network (this api) ++ [("GET", url, jwtToken)] /\
  result.1 <> Resolved false /\
  (result.1 = Pending <-> server "GET" url jwtToken = Silence) /\
  (result.1 = Resolved true <->
     exists status statusText data,
       server "GET" url jwtToken = Response status statusText data /\
       200 <= status < 300) /\
  (result.1 = Resolved true ->
     token (this result.2) = jwtToken /\
     isAuthenticated (this result.2) = negb (String.eqb jwtToken "")) /\
  (forall e, result.1 = Rejected e ->
     token (this result.2) = token (this api) /\
     isAuthenticated (this result.2) = isAuthenticated (this api) /\
     exists error, e = handleError error) /\
  (result.1 = Pending -> token (this result.2) = token (this api)).
Proof.
  intros url result. unfold result, authenticate. fold url.
  destruct (server "GET" url jwtToken) as [status statusText d| | |] eqn:Hs;
    unfold axios.
  - destruct ((200 <=? status) && (status <? 300)) eqn:E; rewrite ?E; simpl;
      (do 5 (split; [done|])).
    + apply andb_true_iff in E as [?%Z.leb_le ?%Z.ltb_lt].
      split; [|split; [done|split; done]].
      split; [|done]. intros _. exists status, statusText, d. split; [done|lia].
    + apply andb_false_iff in E.
      split; [|split; [done|split; [|done]]].
      * split; [done|]. intros (s' & ? & ? & [= <- <- <-] & ?).
        destruct E as [?%Z.leb_gt|?%Z.ltb_ge]; lia.
      * intros e0 [= <-]; split_and!; [done..|].
        by exists (AxiosError (Some (status, statusText)) true).
  - simpl. do 5 (split; [done|]). split; [|split; [done|split; [|done]]].
    + split; [done|]. intros (? & ? & ? & ? & ?); done.
    + intros e0 [= <-]; split_and!; [done..|]. by exists (AxiosError None true).
  - simpl. do 5 (split; [done|]). split; [|split; [done|split; [|done]]].
    + split; [done|]. intros (? & ? & ? & ? & ?); done.
    + intros e0 [= <-]; split_and!; [done..|]. by exists (AxiosError None false).
  - simpl. do 5 (split; [done|]). split; [|split; [done|split; done]].
    split; [done|]. intros (? & ? & ? & ? & ?); done.
Qed.

(* ---- the cache and the calls that change what it holds ---- *)

Lemma cachedRequest_other {W} key (f : W -> outcome value * W) now now' c k :
  k <> key -> cache (cachedRequest key f now now' c).2 !! k = cache c !! k.
Proof.
  intros Hk. unfold cachedRequest.
  destruct (cache c !! key) as [e|]; [destruct (fresh now e); [done|]|];
    destruct (f (this c)) as [[d|err|] w]; simpl; try done;
    by rewrite lookup_insert_ne.
Qed.

Lemma cachedRequest_this {W} key (f : W -> outcome value * W) now now' c :
  this (cachedRequest key f now now' c).2 = this c \/
  this (cachedRequest key f now now' c).2 = (f (this c)).2.
Proof.
  unfold cachedRequest.
  destruct (cache c !! key) as [e|]; [destruct (fresh now e); [by left|]|];
    destruct (f (this c)) as [[d|err|] w]; simpl; by right.
Qed.

Lemma cachedRequest_stores {W} key (f : W -> outcome value * W) now now' c d w :
  stale_or_absent now key c -> f (this c) = (Resolved d, w) ->
  cachedRequest key f now now' c
    = (Resolved d,
       mkClient w (<[key := mkCached d now']> (cache c)) (produced c ++ [key])).
Proof. intros Hs Hf. rewrite cachedRequest_miss by done. by rewrite Hf. Qed.

(** [updateTask] leaves the cached copy of the task in place: a task read,
    then updated, then read again within the time-to-live is the task as it
    was before the update, and the second read asks the service nothing. *)
Theorem getTaskDetails_after_updateTask_is_the_old_task
    (server server' server'' : service) (taskId : string)
    (t1 s1 t2 t3 s3 : Z) (api : OpenMetadataAPI) (task : value) :
  stale_or_absent t1 ("task_" +:+ taskId) api ->
  (getTaskDetails server taskId t1 s1 api).1 = Resolved task ->
  t3 - s1 < CACHE_TTL ->
  let read := (getTaskDetails server taskId t1 s1 api).2 in
  let updated := (updateTask server' taskId t2 read).2 in
  let again := getTaskDetails server'' taskId t3 s3 updated in
  again.1 = Resolved task /\
  again.2 = updated /\
  network (this again.2) = network (this updated).
Proof.
  intros Hs Hr Ht read updated again.
  assert (Hc : cache updated !! ("task_" +:+ taskId) = Some (mkCached task s1)).
  { unfold updated.
    destruct (uncached_methods_leave_cache server' taskId t2 read) as (_ & -> & _).
    unfold read. revert Hr. unfold getTaskDetails.
    rewrite cachedRequest_miss by done.
    destruct (request _ _ _ _ _) as [[d|err|] w]; simpl; try done.
    intros [= ->]. simpl. apply lookup_insert_eq. }
  unfold again, getTaskDetails.
  rewrite (cachedRequest_hit _ _ _ _ _ _ Hc) by done. done.
Qed.

(** The task is open, is closed by an update a second later, and is still
    read as open a second after that. *)
Lemma closed_task_is_read_as_open :
  let read := (getTaskDetails (taskServer "Open") "t1" 0 0 signedIn).2 in
  let updated := (updateTask (taskServer "Closed") "t1" 1000 read).2 in
  (updateTask (taskServer "Closed") "t1" 1000 read).1
    = Resolved (VObj [("id", VStr "t1"); ("status", VStr "Closed")]) /\
  (getTaskDetails (taskServer "Closed") "t1" 2000 2000 updated).1
    = Resolved (VObj [("id", VStr "t1"); ("status", VStr "Open")]).
Proof.
  split; [vm_compute; reflexivity|].
  refine (proj1 (getTaskDetails_after_updateTask_is_the_old_task
                   (taskServer "Open") (taskServer "Closed") (taskServer "Closed")
                   "t1" 0 0 1000 2000 2000 signedIn
                   (VObj [("id", VStr "t1"); ("status", VStr "Open")]) _ _ _)).
  - intros e He. vm_compute in He. discriminate.
  - vm_compute. reflexivity.
  - vm_compute. reflexivity.
Defined.

(* ---- cache keys ---- *)

Lemma searchKey_shift query rest index from size :
  searchKey (query +:+ "_" +:+ rest) index from size
    = searchKey query (rest +:+ "_" +:+ index) from size.
Proof. unfold searchKey. by rewrite !append_assoc. Qed.

(** The key of a search joins the query and the index with an underscore, so
    a query that ends in [_rest] against [index] and the query without that
    ending against [rest_index] share one cache entry: within the
    time-to-live the second search is answered with the result of the first,
    and the service is not asked. *)
Theorem searchAssets_answers_with_another_search
    (encodeURIComponent : string -> string) (server server' : service)
    (query rest index : string) (from size t1 s1 t2 s2 : Z)
    (api : OpenMetadataAPI) (found : value) :
  stale_or_absent t1 (searchKey (query +:+ "_" +:+ rest) index from size) api ->
  (searchAssets encodeURIComponent server (query +:+ "_" +:+ rest) index
     from size t1 s1 api).1 = Resolved found ->
  t2 - s1 < CACHE_TTL ->
  let first := (searchAssets encodeURIComponent server (query +:+ "_" +:+ rest)
                  index from size t1 s1 api).2 in
  searchAssets encodeURIComponent server' query (rest +:+ "_" +:+ index)
    from size t2 s2 first = (Resolved found, first).
Proof.
  intros Hs Hr Ht first.
  assert (Hc : cache first !! searchKey query (rest +:+ "_" +:+ index) from size
               = Some (mkCached found s1)).
  { rewrite <- searchKey_shift. unfold first. revert Hr. unfold searchAssets.
    rewrite cachedRequest_miss by done.
    destruct (request _ _ _ _ _) as [[d|err|] w]; simpl; try done.
    intros [= ->]. apply lookup_insert_eq. }
  unfold searchAssets. by rewrite (cachedRequest_hit _ _ _ _ _ _ Hc).
Qed.

(** The search for [a] in [b_c] is answered with the result of the search
    for [a_b] in [c]. *)
Lemma search_a_in_b_c :
  searchEndpoint id "a_b" "c" 0 10 <> searchEndpoint id "a" "b_c" 0 10 /\
  (searchAssets id echoServer "a" "b_c" 0 10 0 0 signedIn).1
    = Resolved (VStr "http://api/api/v1/search/query?q=a&index=b_c&from=0&size=10") /\
  (searchAssets id echoServer "a" "b_c" 0 10 1000 1000
     (searchAssets id echoServer "a_b" "c" 0 10 0 0 signedIn).2).1
    = Resolved (VStr "http://api/api/v1/search/query?q=a_b&index=c&from=0&size=10").
Proof.
  split; [vm_compute; discriminate|]. split; [vm_compute; reflexivity|].
  refine (f_equal fst
            (searchAssets_answers_with_another_search id echoServer echoServer
               "a" "b" "c" 0 10 0 0 1000 1000 signedIn
               (VStr "http://api/api/v1/search/query?q=a_b&index=c&from=0&size=10")
               _ _ _)).
  - intros e He. vm_compute in He. discriminate.
  - vm_compute. reflexivity.
  - vm_compute. reflexivity.
Defined.

(* ---- sessions ---- *)

Lemma getIngestionBotTokenFn_rejects now w :
  exists w',
    getIngestionBotTokenFn now w
      = (Rejected (if isAuthenticated w then unknownError else notAuthenticated), w') /\
    network w' = network w /\
    w' = if isAuthenticated w
         then (requestDetached "GET" "/bots/name/ingestion-bot" now w).2 else w.
Proof.
  unfold getIngestionBotTokenFn. destruct (isAuthenticated w); simpl; eauto.
Qed.

Lemma getIngestionBotToken_cache now now' (api : OpenMetadataAPI) :
  cache (getIngestionBotToken now now' api).2 = cache api.
Proof.
  unfold getIngestionBotToken, cachedRequest.
  destruct (getIngestionBotTokenFn_rejects now (this api)) as (w' & -> & _).
  destruct (cache api !! _) as [e|]; [by destruct (fresh now e)|done].
Qed.

Lemma perform_keeps_no_bot_token api c :
  cache api !! botKey = None -> cache (perform api c) !! botKey = None.
Proof.
  intros H.
  destruct c; cbn [perform];
    try (etrans; [by apply (cachedRequest_other (W:=fields))|done]).
  - by destruct (uncached_methods_leave_cache server jwtToken 0 api) as (-> & _).
  - by destruct (uncached_methods_leave_cache server taskId now api) as (_ & -> & _).
  - by destruct (uncached_methods_leave_cache server taskId now api) as (_ & _ & ->).
  - by rewrite getIngestionBotToken_cache.
Qed.

Lemma session_snoc baseUrl webAppUrl calls c :
  session baseUrl webAppUrl (calls ++ [c])
    = perform (session baseUrl webAppUrl calls) c.
Proof. unfold session. by rewrite foldl_app. Qed.

Lemma session_no_bot_token baseUrl webAppUrl calls :
  cache (session baseUrl webAppUrl calls) !! botKey = None.
Proof.
  induction calls as [|c calls IH] using rev_ind; [done|].
  rewrite session_snoc. by apply perform_keeps_no_bot_token.
Qed.

(** In no session does [getIngestionBotToken] deliver a token.  Its
    producer tests the promise of [request] instead of the response, so it
    raises every time: the missing-credential error without a token, and
    otherwise the generic error into which [handleError] turns the
    invalid-format error thrown inside the [try].  Nothing is ever cached
    under its key, so every call runs the producer again; with a token each
    call leaves behind a request that nobody awaits, and none asks the
    service anything itself. *)
Theorem getIngestionBotToken_never_delivers (baseUrl webAppUrl : string)
    (calls : list call) (now now' : Z) :
  let api := session baseUrl webAppUrl calls in
  let result := getIngestionBotToken now now' api in
  result.1 = Rejected (if isAuthenticated (this api) then unknownError
                       else notAuthenticated) /\
  cache result.2 = cache api /\
  cache result.2 !! "ingestion_bot_token" = None /\
  produced result.2 = produced api ++ ["ingestion_bot_token"] /\
  network (this result.2) = network (this api) /\
  length (detached (this result.2))
    = (length (detached (this api))
       + if isAuthenticated (this api) then 1 else 0)%nat.
Proof.
  intros api result.
  pose proof (session_no_bot_token baseUrl webAppUrl calls) as Hn.
  fold api in Hn. unfold result, getIngestionBotToken.
  rewrite cachedRequest_miss by (intros e He; fold botKey in He; congruence).
  destruct (getIngestionBotTokenFn_rejects now (this api)) as (w' & -> & Hnet & Hw).
  cbn [fst snd cache produced this]. split_and!; try done.
  rewrite Hw. destruct (isAuthenticated (this api)); simpl; [|lia].
  rewrite length_app. simpl. lia.
Qed.

(* ---- the limiter in a session ---- *)

Lemma requestDetached_evolves maxC iv method endpoint now w :
  RateLimiter.evolves maxC iv (rateLimiter w) ->
  RateLimiter.evolves maxC iv (rateLimiter (requestDetached method endpoint now w).2).
Proof.
  intros H. unfold requestDetached. cbn [snd rateLimiter].
  apply RateLimiter.evolves_wait. by apply RateLimiter.evolves_advance.
Qed.

Lemma request_evolves maxC iv server method endpoint now w :
  RateLimiter.evolves maxC iv (rateLimiter w) ->
  RateLimiter.evolves maxC iv (rateLimiter (request server method endpoint now w).2).
Proof.
  intros H. unfold request.
  set (l := RateLimiter.advance now (rateLimiter w)).
  set (c := RateLimiter.callers l).
  assert (Hl : RateLimiter.evolves maxC iv (RateLimiter.await c (RateLimiter.wait c l))).
  { apply RateLimiter.evolves_await, RateLimiter.evolves_wait.
    by apply RateLimiter.evolves_advance. }
  destruct (RateLimiter.has_acquired _ _); [|done].
  by destruct (axios _) as [[[? ?]|?]|].
Qed.

Lemma cachedRequest_evolves maxC iv key (f : fields -> outcome value * fields)
    now now' (api : OpenMetadataAPI) :
  (forall w, RateLimiter.evolves maxC iv (rateLimiter w) ->
             RateLimiter.evolves maxC iv (rateLimiter (f w).2)) ->
  RateLimiter.evolves maxC iv (rateLimiter (this api)) ->
  RateLimiter.evolves maxC iv
    (rateLimiter (this (cachedRequest key f now now' api).2)).
Proof.
  intros Hf H.
  destruct (cachedRequest_this key f now now' api) as [->| ->]; [done|by apply Hf].
Qed.

Lemma perform_evolves maxC iv api c :
  RateLimiter.evolves maxC iv (rateLimiter (this api)) ->
  RateLimiter.evolves maxC iv (rateLimiter (this (perform api c))).
Proof.
  intros H. destruct c; cbn [perform];
    try (apply cachedRequest_evolves; [|done]; intros w Hw;
         by apply request_evolves).
  - unfold authenticate. destruct (axios _) as [[[status d]|error]|]; [|done..].
    by destruct ((200 <=? status) && (status <? 300)).
  - apply cachedRequest_evolves; [|done]. intros w Hw. unfold getTasksFn.
    destruct (negb (isAuthenticated w)); [done|].
    by apply requestDetached_evolves.
  - unfold updateTask.
    pose proof (request_evolves maxC iv server "PATCH" ("/tasks/" +:+ taskId)
                  now (this api) H) as Hr.
    by destruct (request _ _ _ _ _).
  - unfold getTaskParentAsset.
    pose proof (request_evolves maxC iv server "GET" ("/tasks/" +:+ taskId)
                  now (this api) H) as Hr.
    destruct (request _ _ _ _ _) as [[task|err|] w]; try done.
    by destruct (entityLinkOrNull task).
  - apply cachedRequest_evolves; [|done]. intros w Hw.
    destruct (getIngestionBotTokenFn_rejects now w) as (w' & -> & _ & ->).
    destruct (isAuthenticated w); [|done]. by apply requestDetached_evolves.
Qed.

Lemma session_evolves baseUrl webAppUrl calls :
  RateLimiter.evolves 5 1000
    (rateLimiter (this (session baseUrl webAppUrl calls))).
Proof.
  induction calls as [|c calls IH] using rev_ind.
  - apply RateLimiter.evolves_start.
  - rewrite session_snoc. by apply perform_evolves.
Qed.

(** In every session of a client, whatever the methods called, their
    arguments, the times of the calls and the answers of the service: the
    requests pass the limiter in the order of time, and a request passes no
    sooner than a second after the fifth request before it, so that no more
    than five requests pass in less than a second. *)
Theorem session_sends_five_requests_a_second (baseUrl webAppUrl : string)
    (calls : list call) :
  let api := session baseUrl webAppUrl calls in
  forall i j t t',
    permits api !! i = Some t -> permits api !! j = Some t' ->
    ((i <= j)%nat -> t <= t') /\
    ((i + 5 <= j)%nat -> t + 1000 <= t').
Proof.
  intros api i j t t' Hi Hj.
  pose proof (RateLimiter.evolves_paced 5 1000 _ ltac:(lia)
                (session_evolves baseUrl webAppUrl calls)) as Hp.
  fold api in Hp. unfold permits in *. split; intros Hij.
  - by eapply (RateLimiter.paced_sorted _ _ _ Hp).
  - destruct (lookup_lt_is_Some_2 (RateLimiter.grants (rateLimiter (this api)))
                (i + 5)) as [tm Htm].
    { apply lookup_lt_Some in Hj. lia. }
    pose proof (RateLimiter.paced_spaced _ _ _ Hp i t tm Hi Htm) as H1.
    pose proof (RateLimiter.paced_sorted _ _ _ Hp (i + 5)%nat j tm t' Hij Htm Hj).
    change (RateLimiter.timeoutDelay 1000) with 1000 in H1. lia.
Qed.

(** Seven tasks read at once: five requests pass at once, the other two a
    second later. *)
Lemma seven_reads_at_once :
  let api := session "http://api" "http://web"
               ((fun taskId => GetTaskDetails okServer taskId 0 0)
                  <$> ["a"; "b"; "c"; "d"; "e"; "f"; "g"]) in
  permits api = [0; 0; 0; 0; 0; 1000; 1000] /\
  length (network (this api)) = 7%nat /\
  0 + 1000 <= 1000.
Proof.
  intros api. split; [vm_compute; reflexivity|]. split; [vm_compute; reflexivity|].
  refine (proj2 (session_sends_five_requests_a_second "http://api" "http://web"
                   ((fun taskId => GetTaskDetails okServer taskId 0 0)
                      <$> ["a"; "b"; "c"; "d"; "e"; "f"; "g"])
                   0%nat 5%nat 0 1000 _ _) _).
  - vm_compute. reflexivity.
  - vm_compute. reflexivity.
  - simpl. lia.
Defined.

(* --------------------------------------------------------------------- *)
(** ** Properties of the cache keys *)

Lemma plain_pretty_N_go (x : N) (s : string) :
  plain s = true -> plain (pretty_N_go x s) = true.
Proof.
  revert s. induction (N.lt_wf_0 x) as [x _ IH]; intros s Hs.
  assert (x = 0 \/ 0 < x)%N as [->|?] by lia.
  - by rewrite pretty_N_go_0.
  - rewrite pretty_N_go_step by done. apply IH.
    { by apply N.div_lt. }
    simpl. rewrite Hs. unfold pretty_N_char. by repeat case_match.
Qed.

Lemma plain_pretty_N (x : N) : plain (pretty x) = true.
Proof.
  unfold pretty, pretty_N. case_decide; [done|]. by apply plain_pretty_N_go.
Qed.

Lemma plain_pretty_Z (x : Z) : plain (pretty x) = true.
Proof.
  destruct x as [|p|p]; [done|apply plain_pretty_N|].
  change (pretty (Z.neg p)) with ("-" +:+ pretty (N.pos p)).
  generalize (plain_pretty_N (N.pos p)). generalize (pretty (N.pos p)).
  intros s Hs. cbv [String.append]. simpl. exact Hs.
Qed.

Lemma plain_split (p p' rest rest' : string) :
  plain p = true -> plain p' = true ->
  p +:+ "_" +:+ rest = p' +:+ "_" +:+ rest' -> p = p' /\ rest = rest'.
Proof.
  revert p'. induction p as [|a p IH]; intros [|a' p'] Hp Hp';
    repeat match goal with
           | |- context [String ?c ?q +:+ ?r] =>
               change (String c q +:+ r) with (String c (q +:+ r))
           | |- context ["" +:+ ?r] => change ("" +:+ r) with r
           end.
  - intros H. by injection H as H.
  - intros H. injection H as H _. subst a'. done.
  - intros H. injection H as H _. subst a. done.
  - intros H. injection H as Ha H. subst a'. simpl in Hp, Hp'.
    apply andb_true_iff in Hp as [_ Hp]. apply andb_true_iff in Hp' as [_ Hp'].
    destruct (IH p' Hp Hp' H) as [Hpp Hr]. by subst.
Qed.

Lemma append_cancel_l (s r r' : string) : s +:+ r = s +:+ r' -> r = r'.
Proof.
  induction s as [|a s IH]; [done|].
  change (String a s +:+ ?x) with (String a (s +:+ x)). intros H.
  injection H as H. by apply IH.
Qed.

(** Two listings share a cache entry exactly when they ask for the same
    page: the same limit and the same cursor, a missing cursor and the empty
    one being the same to the endpoint as well.  The cache therefore never
    answers a listing with the page of another. *)
Theorem getTasks_keeps_one_entry_per_page (limit limit' : Z)
    (after after' : option string) :
  (tasksKey limit after = tasksKey limit' after' <->
     limit = limit' /\ orEmpty after = orEmpty after') /\
  (tasksKey limit after = tasksKey limit' after' ->
     tasksEndpoint limit after = tasksEndpoint limit' after') /\
  (tasksEndpoint limit after = tasksEndpoint limit None <-> orEmpty after = "").
Proof.
  assert (Hinj : tasksKey limit after = tasksKey limit' after' ->
                 limit = limit' /\ orEmpty after = orEmpty after').
  { unfold tasksKey. intros H%append_cancel_l.
    apply plain_split in H as [H ->]; [|apply plain_pretty_Z..].
    by apply (inj pretty) in H as ->. }
  split; [split; [done|]|split].
  - intros [-> H]. unfold tasksKey. by rewrite H.
  - intros [-> H]%Hinj. unfold tasksEndpoint. by rewrite H.
  - unfold tasksEndpoint. cbn [orEmpty default String.eqb].
    destruct (String.eqb_spec (orEmpty after) "") as [->|Hn]; [done|].
    split; [|done]. intros H. exfalso.
    rewrite <- (append_nil_r ("/tasks?limit=" +:+ pretty limit)) in H at 2.
    rewrite !append_assoc in H. do 2 apply append_cancel_l in H. discriminate H.
Qed.

End Api.

(* ===================================================================== *)
(** * TokenManager *)
(* ===================================================================== *)

Module TokenManager.

Definition TOKEN_KEY : string := "openmetadata-jwt-token".

(** [vscode.window.show...Message] *)
Inductive notification :=
| Information (text : string)
| Warning (text : string)
| Error (text : string).

(** [context.secrets] and the messages shown so far. *)
Record t := mk {
  secrets : gmap string string;
  shown : list notification
}.

(** Placeholders in the source: both return their argument. *)
Definition encryptToken (token : string) : string := token.
Definition decryptToken (encryptedToken : string) : string := encryptedToken.

(** [getToken()]: [undefined] for a missing or empty secret. *)
Definition getToken (tm : t) : option string :=
  match secrets tm !! TOKEN_KEY with
  | Some encryptedToken =>
      if String.eqb encryptedToken "" then None
      else Some (decryptToken encryptedToken)
  | None => None
  end.

Definition setToken (token : string) (tm : t) : t :=
  mk (<[TOKEN_KEY := encryptToken token]> (secrets tm)) (shown tm).

Definition clearToken (tm : t) : t :=
  mk (delete TOKEN_KEY (secrets tm)) (shown tm).

Definition show (n : notification) (tm : t) : t :=
  mk (secrets tm) (shown tm ++ [n]).

(** What [await this.api.refreshToken(token)] does: it resolves with a new
    token or with nothing, or it throws (an [Error] with its message, or
    something else).  The method is not among the sources; the manager takes
    it as given. *)
Inductive refreshed :=
| Returned (newToken : option string)
| Threw (message : option string).

(** [refreshToken()], the body of the hourly timer. *)
Definition refreshToken (apiRefreshToken : string -> refreshed) (tm : t) : t :=
  match getToken tm with
  | Some token =>
      if String.eqb token "" then tm
      else
        match apiRefreshToken token with
        | Returned (Some newToken) =>
            if String.eqb newToken "" then
              show (Warning "OpenMetadata token has expired. Please authenticate again.")
                   (clearToken tm)
            else
              show (Information "OpenMetadata token refreshed successfully.")
                   (setToken newToken tm)
        | Returned None =>
            show (Warning "OpenMetadata token has expired. Please authenticate again.")
                 (clearToken tm)
        | Threw message =>
            show (Error ("Failed to refresh OpenMetadata token: " +:+
                         default "Unknown error" message))
                 tm
        end
  | None => tm
  end.

(* --------------------------------------------------------------------- *)
(** ** The refresh timer *)

(** [startTokenRefreshInterval()]: the timer has run [refreshToken] once
    for each element of [answers], one run after the other; the element is
    what [api.refreshToken] does at that run, so that a service may fail at
    one run and answer at the next. *)
Definition startTokenRefreshInterval (answers : list (string -> refreshed))
    (tm : t) : t :=
  foldl (fun tm apiRefreshToken => refreshToken apiRefreshToken tm) tm answers.

(* --------------------------------------------------------------------- *)
(** ** Properties *)

Lemma getToken_nonempty tm token : getToken tm = Some token -> token <> "".
Proof.
  unfold getToken. destruct (secrets tm !! TOKEN_KEY) as [enc|]; [|done].
  destruct (String.eqb_spec enc ""); [done|]. by intros [= <-].
Qed.

Lemma getToken_setToken token tm : token <> "" -> getToken (setToken token tm) = Some token.
Proof.
  intros H. unfold getToken, setToken; simpl. rewrite lookup_insert_eq.
  unfold encryptToken, decryptToken. by destruct (String.eqb_spec token "").
Qed.

Lemma getToken_clearToken tm : getToken (clearToken tm) = None.
Proof. unfold getToken, clearToken; simpl. by rewrite lookup_delete_eq. Qed.

(** C6.  A token is stored.  If the refresh call throws, the secrets are
    left as they were and [getToken()] still returns the stored token; if it
    returns no new token, the secret is deleted and [getToken()] returns
    nothing; if it returns a new token, [getToken()] returns the new one. *)
Theorem C6_refresh_keeps_clears_or_replaces (apiRefreshToken : string -> refreshed)
    (tm : t) (token : string) :
  getToken tm = Some token ->
  let tm' := refreshToken apiRefreshToken tm in
  (forall message, apiRefreshToken token = Threw message ->
     secrets tm' = secrets tm /\ getToken tm' = Some token) /\
  (apiRefreshToken token = Returned None \/ apiRefreshToken token = Returned (Some "") ->
     secrets tm' !! TOKEN_KEY = None /\ getToken tm' = None) /\
  (forall newToken, apiRefreshToken token = Returned (Some newToken) ->
     newToken <> "" -> getToken tm' = Some newToken).
Proof.
  intros Htok tm'. pose proof (getToken_nonempty _ _ Htok) as Hne.
  unfold tm', refreshToken. rewrite Htok.
  destruct (String.eqb_spec token ""); [done|].
  repeat split.
  - by rewrite H.
  - by rewrite H.
  - destruct H as [-> | ->]; simpl; apply lookup_delete_eq.
  - destruct H as [-> | ->]; simpl; apply getToken_clearToken.
  - intros newToken -> Hnew. destruct (String.eqb_spec newToken ""); [done|].
    by apply getToken_setToken.
Qed.

(** A manager that holds the token ["old"], and three refresh services. *)
Lemma C6_three_refreshes :
  let tm := setToken "old" (mk ∅ []) in
  getToken tm = Some "old" /\
  getToken (refreshToken (fun _ => Threw (Some "socket hang up")) tm) = Some "old" /\
  getToken (refreshToken (fun _ => Returned None) tm) = None /\
  getToken (refreshToken (fun _ => Returned (Some "new")) tm) = Some "new".
Proof.
  cbv zeta. set (tm := setToken "old" (mk ∅ [])).
  assert (Htok : getToken tm = Some "old") by reflexivity.
  split; [exact Htok|]. split; [|split].
  - exact (proj2 (proj1 (C6_refresh_keeps_clears_or_replaces
                           (fun _ => Threw (Some "socket hang up")) tm "old" Htok)
                    (Some "socket hang up") eq_refl)).
  - exact (proj2 (proj1 (proj2 (C6_refresh_keeps_clears_or_replaces
                           (fun _ => Returned None) tm "old" Htok))
                    (or_introl eq_refl))).
  - apply (proj2 (proj2 (C6_refresh_keeps_clears_or_replaces
                           (fun _ => Returned (Some "new")) tm "old" Htok))
             "new" eq_refl).
    discriminate.
Defined.

(* --------------------------------------------------------------------- *)
(** ** Properties of storage and of the timer *)

(** What is stored is what is read back, except for the empty token, which
    reads back as no token; a cleared token reads back as no token; neither
    operation touches another secret or shows a message. *)
Theorem stored_token_is_read_back (token : string) (tm : t) :
  getToken (setToken token tm) = (if String.eqb token "" then None else Some token) /\
  getToken (clearToken (setToken token tm)) = None /\
  getToken (setToken token (clearToken tm)) = getToken (setToken token tm) /\
  shown (setToken token tm) = shown tm /\
  shown (clearToken tm) = shown tm /\
  forall k, k <> TOKEN_KEY ->
    secrets (setToken token tm) !! k = secrets tm !! k /\
    secrets (clearToken tm) !! k = secrets tm !! k.
Proof.
  split_and!; try done.
  - unfold getToken, setToken; simpl. rewrite lookup_insert_eq.
    unfold encryptToken, decryptToken. by destruct (String.eqb token "").
  - apply getToken_clearToken.
  - unfold getToken, setToken; simpl. by rewrite !lookup_insert_eq.
  - intros k Hk. unfold setToken, clearToken; simpl.
    by rewrite lookup_insert_ne, lookup_delete_ne.
Qed.

Lemma refreshToken_without_token f tm : getToken tm = None -> refreshToken f tm = tm.
Proof. intros H. unfold refreshToken. by rewrite H. Qed.

Lemma refreshToken_with_token f tm token :
  getToken tm = Some token ->
  exists n, shown (refreshToken f tm) = shown tm ++ [n].
Proof.
  intros H. pose proof (getToken_nonempty _ _ H) as Hne.
  unfold refreshToken. rewrite H. destruct (String.eqb_spec token ""); [done|].
  destruct (f token) as [[newToken|]|message]; [destruct (String.eqb newToken "")|..];
    simpl; eauto.
Qed.

Lemma refreshToken_other_secrets f tm k :
  k <> TOKEN_KEY -> secrets (refreshToken f tm) !! k = secrets tm !! k.
Proof.
  intros Hk. unfold refreshToken. destruct (getToken tm) as [token|]; [|done].
  destruct (String.eqb token ""); [done|].
  destruct (f token) as [[newToken|]|message]; [destruct (String.eqb newToken "")|..];
    simpl; by rewrite ?lookup_insert_ne, ?lookup_delete_ne.
Qed.

Lemma startTokenRefreshInterval_snoc answers f tm :
  startTokenRefreshInterval (answers ++ [f]) tm
    = refreshToken f (startTokenRefreshInterval answers tm).
Proof. unfold startTokenRefreshInterval. by rewrite foldl_snoc. Qed.

Lemma startTokenRefreshInterval_without_token answers tm :
  getToken tm = None -> startTokenRefreshInterval answers tm = tm.
Proof.
  intros H. induction answers as [|f answers IH] using rev_ind; [done|].
  rewrite startTokenRefreshInterval_snoc, IH.
  by apply refreshToken_without_token.
Qed.

(** The hourly timer, whatever the refresh service does at each run: it
    touches no secret but the token; while a token is held every run shows
    exactly one message; a run at which the service throws keeps the token,
    so that the next run asks again; once no token is held (none was
    stored, or an expiry cleared it) no later run changes or shows
    anything. *)
Theorem refresh_timer_stops_with_the_token (answers : list (string -> refreshed))
    (tm : t) :
  let tm' := startTokenRefreshInterval answers tm in
  (forall k, k <> TOKEN_KEY -> secrets tm' !! k = secrets tm !! k) /\
  (getToken tm = None -> tm' = tm) /\
  (getToken tm' <> None ->
     length (shown tm') = (length (shown tm) + length answers)%nat) /\
  (length (shown tm') <= length (shown tm) + length answers)%nat /\
  (forall apiRefreshToken token message,
     getToken tm' = Some token -> apiRefreshToken token = Threw message ->
     getToken (startTokenRefreshInterval (answers ++ [apiRefreshToken]) tm)
       = Some token) /\
  (forall more, getToken tm' = None ->
     startTokenRefreshInterval (answers ++ more) tm = tm').
Proof.
  cbv zeta. split_and!.
  - intros k Hk. induction answers as [|f answers IH] using rev_ind; [done|].
    rewrite startTokenRefreshInterval_snoc.
    by rewrite refreshToken_other_secrets.
  - apply startTokenRefreshInterval_without_token.
  - induction answers as [|f answers IH] using rev_ind; [simpl; lia|].
    rewrite startTokenRefreshInterval_snoc, length_app. simpl. intros H.
    destruct (getToken (startTokenRefreshInterval answers tm)) as [token|] eqn:E.
    + destruct (refreshToken_with_token f _ _ E) as [x ->].
      rewrite length_app. simpl. rewrite IH by done. lia.
    + rewrite (refreshToken_without_token _ _ E) in H. done.
  - induction answers as [|f answers IH] using rev_ind; [simpl; lia|].
    rewrite startTokenRefreshInterval_snoc, length_app. simpl.
    destruct (getToken (startTokenRefreshInterval answers tm)) as [token|] eqn:E.
    + destruct (refreshToken_with_token f _ _ E) as [x ->].
      rewrite length_app. simpl. lia.
    + rewrite (refreshToken_without_token _ _ E). lia.
  - intros f token message Htok Hf. rewrite startTokenRefreshInterval_snoc.
    pose proof (getToken_nonempty _ _ Htok) as Hne.
    unfold refreshToken. rewrite Htok.
    destruct (String.eqb_spec token ""); [done|]. by rewrite Hf.
  - intros more H. unfold startTokenRefreshInterval. rewrite foldl_app.
    by apply startTokenRefreshInterval_without_token.
Qed.

End TokenManager.

(* ===================================================================== *)
(** * TaskTreeDataProvider *)
(* ===================================================================== *)

Module Tree.

Inductive Status := Open | Closed.

(** The fields of [Task] that the tree reads; [project] is [project?.name]. *)
Record Task := mkTask {
  id : string;
  name : string;
  entityId : string;
  entityLink : string;
  status : Status;
  project : option string
}.

Record Paging := mkPaging {
  total : Z;
  after : option string
}.

(** [ApiResponse<Task[]>] *)
Record ApiResponse := mkResponse {
  data : list Task;
  paging : option Paging
}.

(** [vscode.TreeItemCollapsibleState] *)
Inductive CollapsibleState := None_ | Collapsed | Expanded.

Record TaskTreeItem := mkItem {
  label : string;
  taskId : string;
  itemEntityId : string;
  itemEntityLink : string;
  collapsibleState : CollapsibleState;
  contextValue : string;
  description : string;
  iconPath : string
}.

Definition getIconForItemType (type : string) : string :=
  if String.eqb type "openTask" then "circle-outline"
  else if String.eqb type "completedTask" then "check"
  else if String.eqb type "project" then "folder"
  else "list-unordered".

(** [new TaskTreeItem(...)]: [this.description = description || this.taskId]. *)
Definition newTaskTreeItem (label taskId entityId entityLink : string)
    (collapsibleState : CollapsibleState) (contextValue : string)
    (description : option string) : TaskTreeItem :=
  mkItem label taskId entityId entityLink collapsibleState contextValue
         (match description with
          | Some d => if String.eqb d "" then taskId else d
          | None => taskId
          end)
         (getIconForItemType contextValue).

(** [status === 'Open'], [status === 'Closed'] *)
Definition isOpen (task : Task) : bool :=
  match status task with Open => true | Closed => false end.
Definition isClosed (task : Task) : bool :=
  match status task with Open => false | Closed => true end.

(** [task.project?.name || 'Ungrouped'] *)
Definition projectNameOf (task : Task) : string :=
  match project task with
  | Some n => if String.eqb n "" then "Ungrouped" else n
  | None => "Ungrouped"
  end.

(** The client as the tree sees it: what [api.getTasks(limit, after)] resolves
    with, or the message of the error it rejects with. *)
Definition api := Z -> option string -> string + ApiResponse.

(** The provider: its two maps, and as observations the [getTasks] calls it
    has made and the messages it has handed to [ErrorHandler.handle]. *)
Record provider := mkProvider {
  taskCache : gmap string (list Task);
  nextPageTokens : gmap string string;
  requests : list (Z * option string);
  reported : list string
}.

Definition initial : provider := mkProvider ∅ ∅ [] [].

(** [refresh()] *)
Definition refresh (p : provider) : provider :=
  mkProvider ∅ ∅ (requests p) (reported p).

Definition called (limit : Z) (after : option string) (p : provider) : provider :=
  mkProvider (taskCache p) (nextPageTokens p) (requests p ++ [(limit, after)])
             (reported p).

(** [ErrorHandler.handle(error, message)] *)
Definition handle (error message : string) (p : provider) : provider :=
  mkProvider (taskCache p) (nextPageTokens p) (requests p)
             (reported p ++ [message +:+ ": " +:+ error]).

(** [getRootItems()] *)
Definition getRootItems (getTasks : api) (p : provider)
    : list TaskTreeItem * provider :=
  match getTasks 1 None with
  | inr response =>
      let totalTasks := match paging response with Some pg => total pg | None => 0 end in
      ([newTaskTreeItem "All Tasks" "all-tasks" "" "" Collapsed "category"
          (Some ("(" +:+ pretty totalTasks +:+ " tasks)"));
        newTaskTreeItem "Open Tasks" "open-tasks" "" "" Collapsed "category" None;
        newTaskTreeItem "Completed Tasks" "completed-tasks" "" "" Collapsed
          "category" None],
       called 1 None p)
  | inl error => ([], handle error "Failed to fetch tasks" (called 1 None p))
  end.

(** [response.paging?.after], when truthy. *)
Definition nextCursor (response : ApiResponse) : option string :=
  match paging response with
  | Some pg =>
      match after pg with
      | Some a => if String.eqb a "" then None else Some a
      | None => None
      end
  | None => None
  end.

(** [cacheTasksAndUpdateNextPageToken(key, response)] *)
Definition cacheTasksAndUpdateNextPageToken (key : string)
    (response : ApiResponse) (p : provider) : provider :=
  let tasks := default [] (taskCache p !! key) in
  let cache' := <[key := tasks ++ data response]> (taskCache p) in
  match nextCursor response with
  | Some a => mkProvider cache' (<[key := a]> (nextPageTokens p)) (requests p) (reported p)
  | None => mkProvider cache' (delete key (nextPageTokens p)) (requests p) (reported p)
  end.

(** The [Map] built by [groupTasksByProject], in insertion order:
    [if (!has(name)) set(name, []); get(name).push(task)]. *)
Fixpoint push (projectName : string) (task : Task)
    (grouped : list (string * list Task)) : list (string * list Task) :=
  match grouped with
  | [] => [(projectName, [task])]
  | (n, ts) :: rest =>
      if String.eqb n projectName then (n, ts ++ [task]) :: rest
      else (n, ts) :: push projectName task rest
  end.

Definition groupTasksByProject (tasks : list Task) : list (string * list Task) :=
  foldl (fun grouped task => push (projectNameOf task) task grouped) [] tasks.

Definition openProjectNode (projectName : string) (n : nat) : TaskTreeItem :=
  newTaskTreeItem projectName projectName "" "" Collapsed "project"
    (Some ("(" +:+ pretty n +:+ " open)")).

Definition completedProjectNode (projectName : string) (n : nat) : TaskTreeItem :=
  newTaskTreeItem projectName projectName "" "" Collapsed "project"
    (Some ("(" +:+ pretty n +:+ " completed)")).

Definition loadMoreNode (key : string) : TaskTreeItem :=
  newTaskTreeItem "Load More..." key "" "" None_ "loadMore" None.

(** One loop of [createTreeItems]: a node for every project, in the order of
    the map, that has a task passing [keep]. *)
Definition projectNodes (keep : Task -> bool)
    (node : string -> nat -> TaskTreeItem)
    (grouped : list (string * list Task)) : list TaskTreeItem :=
  omap (fun '(projectName, projectTasks) =>
          let kept := List.filter keep projectTasks in
          if (0 <? length kept)%nat then Some (node projectName (length kept))
          else None)
       grouped.

(** [createTreeItems(key)] *)
Definition createTreeItems (key : string) (p : provider) : list TaskTreeItem :=
  let tasks := default [] (taskCache p !! key) in
  let groupedTasks := groupTasksByProject tasks in
  [newTaskTreeItem "Open Tasks" "open-tasks" "" "" Expanded "category" None]
  ++ projectNodes isOpen openProjectNode groupedTasks
  ++ [newTaskTreeItem "Completed Tasks" "completed-tasks" "" "" Collapsed
        "category" None]
  ++ projectNodes isClosed completedProjectNode groupedTasks
  ++ (if bool_decide (is_Some (nextPageTokens p !! key)) then [loadMoreNode key]
      else []).

Definition leaf (task : Task) : TaskTreeItem :=
  newTaskTreeItem (name task) (id task) (entityId task) (entityLink task) None_
    (match status task with Closed => "completedTask" | Open => "openTask" end)
    None.

(** [getTasksForProject(projectName)] *)
Definition getTasksForProject (projectName : string) (p : provider)
    : list TaskTreeItem :=
  let tasks := default [] (taskCache p !! "root") in
  let projectTasks :=
    List.filter (fun task => String.eqb (projectNameOf task) projectName) tasks in
  leaf <$> projectTasks.

(** [loadMoreTasks(key)] *)
Definition loadMoreTasks (getTasks : api) (key : string) (p : provider)
    : list TaskTreeItem * provider :=
  match nextPageTokens p !! key with
  | Some nextPageToken =>
      if String.eqb nextPageToken "" then ([], p)
      else
        match getTasks 20 (Some nextPageToken) with
        | inr response =>
            let p' := cacheTasksAndUpdateNextPageToken key response
                        (called 20 (Some nextPageToken) p) in
            (createTreeItems key p', p')
        | inl error =>
            ([], handle error "Failed to load more tasks"
                   (called 20 (Some nextPageToken) p))
        end
  | None => ([], p)
  end.

(** [getChildren(element?)] *)
Definition getChildren (getTasks : api) (element : option TaskTreeItem)
    (p : provider) : list TaskTreeItem * provider :=
  match element with
  | None => getRootItems getTasks p
  | Some element =>
      if String.eqb (contextValue element) "project" then
        (getTasksForProject (taskId element) p, p)
      else if String.eqb (contextValue element) "loadMore" then
        loadMoreTasks getTasks (taskId element) p
      else ([], p)
  end.

(** What the host can do with the provider: ask for the children of a node
    (or of the root), against whatever the client answers at that time, and
    refresh. *)
Inductive action :=
| Expand (getTasks : api) (element : option TaskTreeItem)
| Refresh.

Definition perform (p : provider) (a : action) : provider :=
  match a with
  | Expand getTasks element => (getChildren getTasks element p).2
  | Refresh => refresh p
  end.

(* --------------------------------------------------------------------- *)
(** ** The grouping view, as the specification words it *)

(** The distinct names of a list, in the order of their first occurrence. *)
Definition firstSeen (names : list string) : list string :=
  foldl (fun seen n => if bool_decide (n ∈ seen) then seen else seen ++ [n])
        [] names.

(** The tasks of a project, in the order of the bucket. *)
Definition tasksOf (projectName : string) (tasks : list Task) : list Task :=
  List.filter (fun t => String.eqb (projectNameOf t) projectName) tasks.

(** How many tasks of a project pass [keep]. *)
Definition countOf (keep : Task -> bool) (projectName : string)
    (tasks : list Task) : nat :=
  length (List.filter
            (fun t => keep t && String.eqb (projectNameOf t) projectName) tasks).

(** The grouping view: every project seen, in first-seen order, with its
    tasks. *)
Definition groupingView (tasks : list Task) : list (string * list Task) :=
  (fun n => (n, tasksOf n tasks)) <$> firstSeen (projectNameOf <$> tasks).

(** One node per project that has a task passing [keep], with the count. *)
Definition nodesPerProject (keep : Task -> bool)
    (node : string -> nat -> TaskTreeItem) (tasks : list Task)
    : list TaskTreeItem :=
  omap (fun n => let c := countOf keep n tasks in
                 if (0 <? c)%nat then Some (node n c) else None)
       (firstSeen (projectNameOf <$> tasks)).

(* --------------------------------------------------------------------- *)
(** ** The examples of the specification *)

Definition task (id : string) (status : Status) (project : option string) : Task :=
  mkTask id ("Task " +:+ id) ("entity" +:+ id) "" status project.

Definition threeTasks : list Task :=
  [task "1" Open (Some "A"); task "2" Closed (Some "A"); task "3" Open None].

(** The provider once [threeTasks] are accumulated under ["root"]. *)
Definition accumulated : provider :=
  mkProvider {["root" := threeTasks]} ∅ [] [].

Definition openCategory : TaskTreeItem :=
  newTaskTreeItem "Open Tasks" "open-tasks" "" "" Collapsed "category" None.
Definition completedCategory : TaskTreeItem :=
  newTaskTreeItem "Completed Tasks" "completed-tasks" "" "" Collapsed "category" None.

Definition offline : api := fun _ _ => inl "offline".

(** A listing of two pages: P1 has five tasks and the cursor ["c1"], P2 has
    three tasks and no cursor. *)
Definition P1 : ApiResponse :=
  mkResponse [task "1" Open (Some "A"); task "2" Closed (Some "A");
              task "3" Open None; task "4" Open (Some "B");
              task "5" Closed (Some "B")]
             (Some (mkPaging 8 (Some "c1"))).
Definition P2 : ApiResponse :=
  mkResponse [task "6" Open (Some "A"); task "7" Closed None;
              task "8" Open (Some "C")]
             (Some (mkPaging 8 None)).
Definition twoPages : api := fun _ after =>
  match after with
  | None => inr P1
  | Some a => if String.eqb a "c1" then inr P2 else inl "Error 404: Not Found"
  end.

(* --------------------------------------------------------------------- *)
(** ** Properties *)

Lemma getChildren_category getTasks element p :
  contextValue element = "category" ->
  getChildren getTasks (Some element) p = ([], p).
Proof. intros H. unfold getChildren. by rewrite H. Qed.

Lemma getChildren_project getTasks element p :
  contextValue element = "project" ->
  getChildren getTasks (Some element) p
    = (getTasksForProject (taskId element) p, p).
Proof. intros H. unfold getChildren. by rewrite H. Qed.

Lemma getRootItems_accumulates_nothing getTasks p :
  taskCache (getRootItems getTasks p).2 = taskCache p /\
  nextPageTokens (getRootItems getTasks p).2 = nextPageTokens p.
Proof. unfold getRootItems. by destruct (getTasks 1 None). Qed.

(** The tasks of the specification, were they accumulated under ["root"]
    (no run of the provider accumulates anything): [createTreeItems] would
    compute the project nodes A (1 open) and Ungrouped (1 open) after the
    "Open Tasks" node and A (1 completed) after the "Completed Tasks" node,
    but [getChildren] has no case for a category node, and expanding "Open
    Tasks" or "Completed Tasks" returns nothing. *)
Lemma category_node_of_seeded_bucket_has_no_children :
  (getChildren offline (Some openCategory) accumulated).1 = [] /\
  (getChildren offline (Some completedCategory) accumulated).1 = [] /\
  createTreeItems "root" accumulated =
    [newTaskTreeItem "Open Tasks" "open-tasks" "" "" Expanded "category" None;
     openProjectNode "A" 1; openProjectNode "Ungrouped" 1;
     completedCategory;
     completedProjectNode "A" 1].
Proof. repeat split; vm_compute; reflexivity. Qed.

(** C4 on the two pages of the specification: the root listing asks for one
    task and keeps neither the page nor its cursor, so that "load more" on
    ["root"] finds no cursor, fetches nothing and returns nothing; the
    accumulation holds no task, not eight.  Started from a bucket that holds
    P1 and its cursor, [loadMoreTasks] fetches P2, holds eight tasks and
    returns no "load more" node. *)
Theorem C4_first_page_is_not_accumulated :
  let listed := (getChildren twoPages None initial).2 in
  let more := getChildren twoPages (Some (loadMoreNode "root")) listed in
  taskCache listed !! "root" = None /\
  nextPageTokens listed !! "root" = None /\
  more.1 = [] /\
  taskCache more.2 !! "root" = None /\
  requests more.2 = [(1, None)] /\
  let seeded := mkProvider {["root" := data P1]} {["root" := "c1"]} [] [] in
  let more' := getChildren twoPages (Some (loadMoreNode "root")) seeded in
  length <$> taskCache more'.2 !! "root" = Some 8%nat /\
  nextPageTokens more'.2 !! "root" = None /\
  loadMoreNode "root" ∉ more'.1.
Proof.
  cbv zeta. repeat split; try (vm_compute; reflexivity).
  vm_compute. intros H. repeat (inversion H as [|? ? ? H']; clear H; rename H' into H; subst).
Qed.

Lemma length_tasksOf n tasks :
  length (tasksOf n tasks)
    = (countOf isOpen n tasks + countOf isClosed n tasks)%nat.
Proof.
  unfold tasksOf, countOf. induction tasks as [|t tasks IH]; [done|]. simpl.
  destruct (String.eqb (projectNameOf t) n); simpl.
  - unfold isOpen, isClosed in *. destruct (status t); simpl; rewrite IH; lia.
  - by rewrite !andb_false_r.
Qed.

(** On [accumulated], a bucket no run of the provider builds: the project
    node A listed after "Open Tasks" would expand to both tasks of A, the
    closed one included. *)
Lemma project_node_of_seeded_bucket_lists_closed_task :
  (getChildren offline (Some (openProjectNode "A" 1)) accumulated).1
    = [leaf (task "1" Open (Some "A")); leaf (task "2" Closed (Some "A"))] /\
  (getChildren offline (Some (openProjectNode "A" 1)) accumulated).1
    <> leaf <$> List.filter
                  (fun t => isOpen t && String.eqb (projectNameOf t) "A")
                  threeTasks.
Proof. split; [vm_compute; reflexivity|]. vm_compute. discriminate. Qed.

(** [getTasksForProject] as a function of the bucket: expanding a project
    node returns the leaves of all the tasks held under ["root"] whose
    project name is the node's, open and closed alike, in the order of the
    bucket, each marked by its own status; the category after whose node
    the project node was listed plays no part, and the provider is left as
    it was. *)
Lemma getChildren_project_lists_whole_project (getTasks : api)
    (element : TaskTreeItem) (p : provider) :
  contextValue element = "project" ->
  let tasks := default [] (taskCache p !! "root") in
  let children := (getChildren getTasks (Some element) p).1 in
  getChildren getTasks (Some element) p = (leaf <$> tasksOf (taskId element) tasks, p) /\
  (forall t, t ∈ tasks -> projectNameOf t = taskId element -> leaf t ∈ children) /\
  length children
    = (countOf isOpen (taskId element) tasks
       + countOf isClosed (taskId element) tasks)%nat /\
  (forall n m,
     getChildren getTasks (Some (openProjectNode (taskId element) n)) p
     = getChildren getTasks (Some (completedProjectNode (taskId element) m)) p).
Proof.
  intros H tasks children.
  assert (Hc : children = leaf <$> tasksOf (taskId element) tasks).
  { unfold children. by rewrite getChildren_project. }
  split; [by rewrite getChildren_project|]. split; [|split].
  - intros t Ht Hp. rewrite Hc. apply list_elem_of_fmap_2.
    unfold tasksOf. apply list_elem_of_In, List.filter_In. split.
    + by apply list_elem_of_In.
    + rewrite Hp. apply String.eqb_refl.
  - rewrite Hc, length_fmap. apply length_tasksOf.
  - intros n m. by rewrite !getChildren_project.
Qed.

(** The project node A of [accumulated], reached either way. *)
Lemma project_A_of_seeded_bucket :
  getChildren offline (Some (completedProjectNode "A" 1)) accumulated
    = ([leaf (task "1" Open (Some "A")); leaf (task "2" Closed (Some "A"))],
       accumulated).
Proof.
  exact (proj1 (getChildren_project_lists_whole_project offline
                  (completedProjectNode "A" 1) accumulated eq_refl)).
Defined.

(* --------------------------------------------------------------------- *)
(** ** The grouping computed by [createTreeItems] *)

Lemma firstSeen_snoc names n :
  firstSeen (names ++ [n]) =
    if bool_decide (n ∈ firstSeen names) then firstSeen names
    else firstSeen names ++ [n].
Proof. unfold firstSeen. by rewrite foldl_snoc. Qed.

Lemma elem_of_firstSeen names n : n ∈ firstSeen names <-> n ∈ names.
Proof.
  induction names as [|m names IH] using rev_ind; [done|].
  rewrite firstSeen_snoc. case_bool_decide as Hm.
  - rewrite elem_of_app, list_elem_of_singleton, IH.
    split; [tauto|]. intros [?| ->]; [done|]. by apply IH.
  - rewrite !elem_of_app, IH. done.
Qed.

Lemma NoDup_firstSeen names : NoDup (firstSeen names).
Proof.
  induction names as [|m names IH] using rev_ind; [constructor|].
  rewrite firstSeen_snoc. case_bool_decide as Hm; [done|].
  apply NoDup_app. split; [done|]. split; [|apply NoDup_singleton].
  intros x Hx ->%list_elem_of_singleton. done.
Qed.

Lemma tasksOf_snoc m tasks t :
  tasksOf m (tasks ++ [t]) =
    tasksOf m tasks ++ if String.eqb (projectNameOf t) m then [t] else [].
Proof. unfold tasksOf. rewrite List.filter_app. simpl. by destruct (String.eqb _ _). Qed.

Lemma tasksOf_unseen m tasks : m ∉ projectNameOf <$> tasks -> tasksOf m tasks = [].
Proof.
  induction tasks as [|t tasks IH]; [done|]. intros Hm.
  rewrite fmap_cons, not_elem_of_cons in Hm. destruct Hm as [Hne Hm].
  unfold tasksOf in *. simpl.
  destruct (String.eqb_spec (projectNameOf t) m); [congruence|]. by apply IH.
Qed.

Lemma push_seen n t (g : string -> list Task) keys :
  NoDup keys -> n ∈ keys ->
  push n t ((fun m => (m, g m)) <$> keys) =
    (fun m => (m, g m ++ if String.eqb n m then [t] else [])) <$> keys.
Proof.
  induction keys as [|k keys IH]; intros Hnd Hin; [by apply elem_of_nil in Hin|].
  apply NoDup_cons in Hnd as [Hk Hnd]. simpl.
  destruct (String.eqb_spec k n) as [->|Hne].
  - rewrite String.eqb_refl. f_equal.
    apply list_fmap_ext. intros i m Hm.
    destruct (String.eqb_spec n m) as [->|]; [|by rewrite app_nil_r].
    exfalso. apply Hk. by eapply list_elem_of_lookup_2.
  - destruct (String.eqb_spec n k); [congruence|]. rewrite app_nil_r. f_equal.
    apply IH; [done|]. apply elem_of_cons in Hin as [->|]; [congruence|done].
Qed.

Lemma push_unseen n t (g : string -> list Task) keys :
  n ∉ keys ->
  push n t ((fun m => (m, g m)) <$> keys) =
    ((fun m => (m, g m)) <$> keys) ++ [(n, [t])].
Proof.
  induction keys as [|k keys IH]; intros Hin; [done|].
  apply not_elem_of_cons in Hin as [Hne Hin]. simpl.
  destruct (String.eqb_spec k n); [congruence|]. f_equal. by apply IH.
Qed.

(** The map built by [groupTasksByProject] is the grouping view. *)
Lemma groupTasksByProject_view tasks : groupTasksByProject tasks = groupingView tasks.
Proof.
  induction tasks as [|t tasks IH] using rev_ind; [done|].
  unfold groupTasksByProject in *. rewrite foldl_snoc, IH. unfold groupingView.
  rewrite fmap_app. change (projectNameOf <$> [t]) with [projectNameOf t].
  rewrite firstSeen_snoc. case_bool_decide as Hseen.
  - rewrite push_seen by (done || apply NoDup_firstSeen).
    apply list_fmap_ext. intros i m _. f_equal.
    by rewrite tasksOf_snoc.
  - rewrite push_unseen by done. rewrite fmap_app. simpl. f_equal.
    + apply list_fmap_ext. intros i m Hm. f_equal. rewrite tasksOf_snoc.
      destruct (String.eqb_spec (projectNameOf t) m) as [<-|]; [|by rewrite app_nil_r].
      exfalso. apply Hseen. by eapply list_elem_of_lookup_2.
    + rewrite tasksOf_snoc, String.eqb_refl, tasksOf_unseen; [done|].
      by rewrite <- elem_of_firstSeen.
Qed.

Lemma length_filter_tasksOf keep n tasks :
  length (List.filter keep (tasksOf n tasks)) = countOf keep n tasks.
Proof.
  unfold countOf, tasksOf. induction tasks as [|t tasks IH]; [done|]. simpl.
  destruct (String.eqb (projectNameOf t) n), (keep t) eqn:Hk; simpl;
    rewrite ?Hk; simpl; by rewrite ?IH.
Qed.

Lemma projectNodes_view keep node tasks :
  projectNodes keep node (groupTasksByProject tasks) = nodesPerProject keep node tasks.
Proof.
  rewrite groupTasksByProject_view. unfold projectNodes, nodesPerProject, groupingView.
  induction (firstSeen (projectNameOf <$> tasks)) as [|n names IH]; [done|].
  rewrite fmap_cons. cbn [omap list_omap].
  rewrite length_filter_tasksOf, IH. done.
Qed.

Lemma createTreeItems_nodes (key : string) (p : provider) :
  let tasks := default [] (taskCache p !! key) in
  createTreeItems key p =
    [newTaskTreeItem "Open Tasks" "open-tasks" "" "" Expanded "category" None]
    ++ nodesPerProject isOpen openProjectNode tasks
    ++ [completedCategory]
    ++ nodesPerProject isClosed completedProjectNode tasks
    ++ (if bool_decide (is_Some (nextPageTokens p !! key))
        then [loadMoreNode key] else []).
Proof. intros tasks. unfold createTreeItems. by rewrite !projectNodes_view. Qed.

Lemma elem_of_nodesPerProject keep node tasks item :
  item ∈ nodesPerProject keep node tasks <->
  exists n, n ∈ projectNameOf <$> tasks /\ (0 < countOf keep n tasks)%nat /\
            item = node n (countOf keep n tasks).
Proof.
  unfold nodesPerProject. rewrite list_elem_of_omap. split.
  - intros (n & Hn & Hsome). exists n. rewrite <- elem_of_firstSeen.
    destruct (Nat.ltb_spec 0 (countOf keep n tasks)); [|done].
    injection Hsome as <-. done.
  - intros (n & Hn & Hpos & ->). exists n. rewrite elem_of_firstSeen.
    split; [done|]. by destruct (Nat.ltb_spec 0 (countOf keep n tasks)); [|lia].
Qed.

Lemma tasksOf_seen n tasks : n ∈ projectNameOf <$> tasks -> tasksOf n tasks <> [].
Proof.
  induction tasks as [|t tasks IH]; intros Hin; [by apply elem_of_nil in Hin|].
  rewrite fmap_cons in Hin. unfold tasksOf in *. simpl.
  destruct (String.eqb_spec (projectNameOf t) n) as [|Hne]; [done|].
  apply elem_of_cons in Hin as [->|Hin]; [done|]. by apply IH.
Qed.

(** The map built by [groupTasksByProject] is the grouping view: its keys
    are the project names of the tasks (["Ungrouped"] for a task without
    one), each once, in the order in which they are first seen; the value of
    a key is the tasks of that project, in the order of the bucket, and is
    never empty. *)
Theorem groupTasksByProject_first_seen_order (tasks : list Task) :
  groupTasksByProject tasks = groupingView tasks /\
  (groupTasksByProject tasks).*1 = firstSeen (projectNameOf <$> tasks) /\
  NoDup (groupTasksByProject tasks).*1 /\
  (forall n, n ∈ (groupTasksByProject tasks).*1 <-> n ∈ projectNameOf <$> tasks) /\
  (forall n ts, (n, ts) ∈ groupTasksByProject tasks ->
     ts = tasksOf n tasks /\ ts <> []).
Proof.
  assert (Hkeys : (groupTasksByProject tasks).*1 = firstSeen (projectNameOf <$> tasks)).
  { rewrite groupTasksByProject_view. unfold groupingView.
    rewrite <- list_fmap_compose. apply list_fmap_id. }
  split; [apply groupTasksByProject_view|]. split; [done|].
  rewrite Hkeys. split; [apply NoDup_firstSeen|]. split.
  - intros n. apply elem_of_firstSeen.
  - intros n ts. rewrite groupTasksByProject_view. unfold groupingView.
    intros (m & [= -> ->] & Hm)%list_elem_of_fmap. split; [done|].
    apply tasksOf_seen. by apply elem_of_firstSeen.
Qed.

(** The node list of [createTreeItems]: after the "Open Tasks" node one node
    per project with an open task, labelled with the project's name and the
    number of its open tasks, projects in first-seen order and none with a
    zero count; the same after "Completed Tasks" for closed tasks; and a
    "load more" node at the end exactly when the bucket has a cursor. *)
Theorem createTreeItems_lists_projects_by_status (key : string) (p : provider) :
  let tasks := default [] (taskCache p !! key) in
  createTreeItems key p =
    [newTaskTreeItem "Open Tasks" "open-tasks" "" "" Expanded "category" None]
    ++ nodesPerProject isOpen openProjectNode tasks
    ++ [completedCategory]
    ++ nodesPerProject isClosed completedProjectNode tasks
    ++ (if bool_decide (is_Some (nextPageTokens p !! key))
        then [loadMoreNode key] else []) /\
  (forall item, item ∈ nodesPerProject isOpen openProjectNode tasks <->
     exists n, n ∈ projectNameOf <$> tasks /\ (0 < countOf isOpen n tasks)%nat /\
               item = openProjectNode n (countOf isOpen n tasks)) /\
  (forall item, item ∈ nodesPerProject isClosed completedProjectNode tasks <->
     exists n, n ∈ projectNameOf <$> tasks /\ (0 < countOf isClosed n tasks)%nat /\
               item = completedProjectNode n (countOf isClosed n tasks)).
Proof.
  intros tasks. split; [apply createTreeItems_nodes|].
  split; intros item; apply elem_of_nodesPerProject.
Qed.

(* --------------------------------------------------------------------- *)
(** ** Load more *)

Lemma contextValue_nodesPerProject keep node tasks item :
  (forall n c, contextValue (node n c) = "project") ->
  item ∈ nodesPerProject keep node tasks -> contextValue item = "project".
Proof.
  intros Hnode (n & _ & _ & ->)%elem_of_nodesPerProject. apply Hnode.
Qed.

Lemma loadMoreNode_only_at_end key key' p :
  nextPageTokens p !! key = None -> loadMoreNode key' ∉ createTreeItems key p.
Proof.
  intros Hnone Hin. rewrite createTreeItems_nodes in Hin. cbv zeta in Hin.
  rewrite Hnone in Hin.
  rewrite bool_decide_eq_false_2 in Hin by (by intros [? ?]).
  rewrite app_nil_r in Hin.
  repeat (apply elem_of_app in Hin as [Hin|Hin]).
  - apply list_elem_of_singleton in Hin. discriminate Hin.
  - apply contextValue_nodesPerProject in Hin; [discriminate Hin|done].
  - apply list_elem_of_singleton in Hin. discriminate Hin.
  - apply contextValue_nodesPerProject in Hin; [discriminate Hin|done].
Qed.

(** Activating "load more" on a bucket that has a cursor, when the fetch
    succeeds: [getTasks] is called once, with limit 20 and the cursor; the
    page is appended to the bucket, whose other tasks keep their order; the
    cursor becomes the page's, or is removed when the page has none; and the
    node list computed from the new bucket ends with a "load more" node
    when a cursor remains and has none otherwise.  When the fetch fails the
    bucket and its cursor are left as they were and no node is returned. *)
Theorem loadMoreTasks_appends_one_page (getTasks : api) (key : string)
    (p : provider) (cursor : string) :
  nextPageTokens p !! key = Some cursor -> cursor <> "" ->
  let more := loadMoreTasks getTasks key p in
  requests more.2 = requests p ++ [(20, Some cursor)] /\
  match getTasks 20 (Some cursor) with
  | inr response =>
      taskCache more.2 !! key
        = Some (default [] (taskCache p !! key) ++ data response) /\
      nextPageTokens more.2 !! key = nextCursor response /\
      more.1 = createTreeItems key more.2 /\
      (is_Some (nextCursor response) -> last more.1 = Some (loadMoreNode key)) /\
      (nextCursor response = None -> loadMoreNode key ∉ more.1)
  | inl error =>
      more.1 = [] /\ taskCache more.2 = taskCache p /\
      nextPageTokens more.2 = nextPageTokens p
  end.
Proof.
  intros Hcur Hne more. unfold more, loadMoreTasks. rewrite Hcur.
  destruct (String.eqb_spec cursor ""); [done|].
  destruct (getTasks 20 (Some cursor)) as [error|response]; [done|].
  cbn [fst snd].
  set (p' := cacheTasksAndUpdateNextPageToken key response _).
  assert (Hreq : requests p' = requests p ++ [(20, Some cursor)]).
  { unfold p', cacheTasksAndUpdateNextPageToken. by destruct (nextCursor response). }
  assert (Hcache : taskCache p' !! key
                   = Some (default [] (taskCache p !! key) ++ data response)).
  { unfold p', cacheTasksAndUpdateNextPageToken.
    destruct (nextCursor response); simpl; apply lookup_insert_eq. }
  assert (Htok : nextPageTokens p' !! key = nextCursor response).
  { unfold p', cacheTasksAndUpdateNextPageToken.
    destruct (nextCursor response); simpl;
      [apply lookup_insert_eq|apply lookup_delete_eq]. }
  repeat split; try done.
  - intros [a Ha]. rewrite createTreeItems_nodes. cbv zeta.
    rewrite Htok, Ha. rewrite bool_decide_eq_true_2 by eauto.
    rewrite !app_assoc. apply last_snoc.
  - intros Hnone. apply loadMoreNode_only_at_end. by rewrite Htok.
Qed.

(** From a bucket that holds P1 and its cursor, one "load more" gives eight
    tasks and no further "load more" node. *)
Lemma loadMoreTasks_second_page :
  let seeded := mkProvider {["root" := data P1]} {["root" := "c1"]} [] [] in
  let more := loadMoreTasks twoPages "root" seeded in
  requests more.2 = [(20, Some "c1")] /\
  taskCache more.2 !! "root" = Some (data P1 ++ data P2) /\
  length (data P1 ++ data P2) = 8%nat /\
  nextPageTokens more.2 !! "root" = None /\
  loadMoreNode "root" ∉ more.1.
Proof.
  cbv zeta.
  destruct (loadMoreTasks_appends_one_page twoPages "root"
              (mkProvider {["root" := data P1]} {["root" := "c1"]} [] []) "c1")
    as (Hreq & Hcache & Htok & _ & _ & Hlast).
  - apply lookup_singleton_eq.
  - discriminate.
  - split; [exact Hreq|]. split; [exact Hcache|]. split; [reflexivity|].
    split; [exact Htok|]. apply Hlast. reflexivity.
Defined.

(** Whatever the host does with a new provider, and whatever the client
    answers, no task is ever accumulated and no cursor is ever stored: the
    only writer of the two maps is [loadMoreTasks], which writes only when a
    cursor is already stored. *)
Theorem nothing_is_ever_accumulated (actions : list action) :
  taskCache (foldl perform initial actions) = ∅ /\
  nextPageTokens (foldl perform initial actions) = ∅.
Proof.
  induction actions as [|a actions [IHc IHt]] using rev_ind; [done|].
  rewrite foldl_snoc. set (p := foldl perform initial actions) in *.
  destruct a as [getTasks [element|]|]; simpl.
  - unfold getChildren.
    destruct (String.eqb (contextValue element) "project"); [done|].
    destruct (String.eqb (contextValue element) "loadMore"); [|done].
    unfold loadMoreTasks. rewrite IHt, lookup_empty. done.
  - destruct (getRootItems_accumulates_nothing getTasks p) as [-> ->]. done.
  - done.
Qed.

End Tree.

(* ===================================================================== *)
(** * MockOpenMetadataAPI *)
(* ===================================================================== *)

Module Mock.
Import Tree.

(** [array.findIndex(predicate)]: the first index that passes, or [-1]. *)
Fixpoint findIndexFrom {A} (predicate : A -> bool) (k : Z) (l : list A) : Z :=
  match l with
  | [] => -1
  | x :: rest => if predicate x then k else findIndexFrom predicate (k + 1) rest
  end.
Definition findIndex {A} (predicate : A -> bool) (l : list A) : Z :=
  findIndexFrom predicate 0 l.

(** [array.slice(start, end)] for integers: a negative index counts from
    the end. *)
Definition slice {A} (start end_ : Z) (l : list A) : list A :=
  let len := Z.of_nat (length l) in
  let k := if start <? 0 then Z.max (len + start) 0 else Z.min start len in
  let final := if end_ <? 0 then Z.max (len + end_) 0 else Z.min end_ len in
  take (Z.to_nat (final - k)) (drop (Z.to_nat k) l).

(** [getTasks(limit = 20, after?)] of the mock client, over [mockTasks]. *)
Definition getTasks (limit : Z) (after : option string) (mockTasks : list Task)
    : ApiResponse :=
  let startIndex :=
    match after with
    | Some a =>
        if String.eqb a "" then 0
        else findIndex (fun t => String.eqb (id t) a) mockTasks + 1
    | None => 0
    end in
  let tasks := slice startIndex (startIndex + limit) mockTasks in
  mkResponse tasks
    (Some (mkPaging (Z.of_nat (length mockTasks)) (id <$> last tasks))).

(** [Partial<Task>]: the properties an update carries. *)
Record PartialTask := mkPartial {
  newId : option string;
  newName : option string;
  newEntityId : option string;
  newEntityLink : option string;
  newStatus : option Status;
  newProject : option (option string)
}.

(** [{ ...task, ...updateData }] *)
Definition merge (task : Task) (updateData : PartialTask) : Task :=
  mkTask (default (id task) (newId updateData))
         (default (name task) (newName updateData))
         (default (entityId task) (newEntityId updateData))
         (default (entityLink task) (newEntityLink updateData))
         (default (status task) (newStatus updateData))
         (default (project task) (newProject updateData)).

Definition notFound (taskId : string) : string := "Task not found: " +:+ taskId.

(** [updateTask(taskId, updateData)]: the updated task or the message of the
    error thrown, and [mockTasks] afterwards. *)
Definition updateTask (taskId : string) (updateData : PartialTask)
    (mockTasks : list Task) : (string + Task) * list Task :=
  let taskIndex := findIndex (fun t => String.eqb (id t) taskId) mockTasks in
  if taskIndex =? -1 then (inl (notFound taskId), mockTasks)
  else
    match mockTasks !! Z.to_nat taskIndex with
    | Some task =>
        let task' := merge task updateData in
        (inr task', <[Z.to_nat taskIndex := task']> mockTasks)
    | None => (inl (notFound taskId), mockTasks)
    end.

(** [getTaskDetails(taskId)] *)
Definition getTaskDetails (taskId : string) (mockTasks : list Task)
    : string + Task :=
  match List.find (fun t => String.eqb (id t) taskId) mockTasks with
  | Some task => inr task
  | None => inl (notFound taskId)
  end.

(** A caller that lists the tasks page by page: it asks for the next page
    with the cursor of the last one, as long as there is one. *)
Fixpoint pages (fuel : nat) (limit : Z) (after : option string)
    (mockTasks : list Task) : list (list Task) :=
  match fuel with
  | O => []
  | S fuel' =>
      let response := getTasks limit after mockTasks in
      data response ::
        match nextCursor response with
        | Some a => pages fuel' limit (Some a) mockTasks
        | None => []
        end
  end.

(** The five tasks of the mock client, with the fields that the tree reads
    (the mock gives its tasks no [entityLink]). *)
Definition mockTasks : list Task :=
  [mkTask "1" "Task 1" "entity1" "" Open (Some "Project A");
   mkTask "2" "Task 2" "entity2" "" Open (Some "Project A");
   mkTask "3" "Task 3" "entity3" "" Open (Some "Project B");
   mkTask "4" "Task 4" "entity4" "" Closed (Some "Project B");
   mkTask "5" "Task 5" "entity5" "" Closed (Some "Project C")].

(* --------------------------------------------------------------------- *)
(** ** Properties *)

Lemma findIndexFrom_lookup (taskId : string) (k : Z) (l : list Task) (i : nat) t :
  NoDup (id <$> l) -> l !! i = Some t -> id t = taskId ->
  findIndexFrom (fun t => String.eqb (id t) taskId) k l = k + Z.of_nat i.
Proof.
  revert k i. induction l as [|x l IH]; intros k i Hnd Hi Ht; [done|].
  rewrite fmap_cons in Hnd. apply NoDup_cons in Hnd as [Hx Hnd]. simpl.
  destruct i as [|i]; simpl in Hi.
  - injection Hi as ->. rewrite (proj2 (String.eqb_eq _ _) Ht). lia.
  - destruct (String.eqb_spec (id x) taskId) as [Hxt|_].
    + exfalso. apply Hx. rewrite Hxt, <- Ht.
      apply list_elem_of_fmap. exists t. split; [done|].
      by eapply list_elem_of_lookup_2.
    + rewrite (IH (k + 1) i Hnd Hi Ht). lia.
Qed.

Lemma findIndexFrom_none (taskId : string) (k : Z) (l : list Task) :
  0 <= k ->
  (findIndexFrom (fun t => String.eqb (id t) taskId) k l = -1 <->
   taskId ∉ id <$> l) /\
  (findIndexFrom (fun t => String.eqb (id t) taskId) k l <> -1 ->
   exists i t, findIndexFrom (fun t => String.eqb (id t) taskId) k l = k + Z.of_nat i /\
               l !! i = Some t /\ id t = taskId /\
               List.find (fun t => String.eqb (id t) taskId) l = Some t).
Proof.
  revert k. induction l as [|x l IH]; intros k Hk.
  - simpl. split; [split; [intros _; apply not_elem_of_nil|done]|done].
  - cbn [findIndexFrom List.find]. rewrite fmap_cons.
    destruct (String.eqb_spec (id x) taskId) as [Hxt|Hxt].
    + split.
      * split; [lia|]. intros H. exfalso. apply H. rewrite <- Hxt. apply elem_of_cons.
        by left.
      * intros _. exists 0%nat, x. split; [lia|]. done.
    + destruct (IH (k + 1) ltac:(lia)) as [IH1 IH2]. split.
      * rewrite IH1. rewrite not_elem_of_cons.
        split; [by intros ?; split|by intros [_ ?]].
      * intros H. destruct (IH2 H) as (i & t & Hf & Hl & Ht & Hfind).
        exists (S i), t. split; [lia|]. done.
Qed.

Lemma slice_forward {A} (start end_ : Z) (l : list A) :
  0 <= start -> 0 <= end_ ->
  slice start end_ l = take (Z.to_nat (end_ - start)) (drop (Z.to_nat start) l).
Proof.
  intros Hs He. unfold slice.
  destruct (Z.ltb_spec start 0); [lia|]. destruct (Z.ltb_spec end_ 0); [lia|].
  set (len := Z.of_nat (length l)).
  destruct (Z.le_gt_cases len start) as [Hge|Hlt].
  - rewrite !drop_ge by lia. by rewrite !take_nil.
  - rewrite (Z.min_l start len) by lia.
    destruct (Z.le_gt_cases end_ len) as [Hle|Hgt].
    + by rewrite (Z.min_l end_ len) by lia.
    + rewrite (Z.min_r end_ len) by lia.
      rewrite !take_ge; [done|rewrite length_drop; lia|rewrite length_drop; lia].
Qed.

Lemma getTasks_first (limit : Z) (tasks : list Task) :
  data (getTasks limit None tasks)
    = if 0 <=? limit then take (Z.to_nat limit) tasks
      else take (length tasks - Z.to_nat (- limit)) tasks.
Proof.
  unfold getTasks. cbn [data]. rewrite Z.add_0_l.
  destruct (Z.leb_spec 0 limit).
  - rewrite slice_forward by lia. rewrite Z.sub_0_r. done.
  - unfold slice. simpl. destruct (Z.ltb_spec limit 0); [|lia].
    rewrite Z.min_l by lia. rewrite drop_0. f_equal. lia.
Qed.

Lemma getTasks_after (limit : Z) (tasks : list Task) (i : nat) t :
  NoDup (id <$> tasks) -> tasks !! i = Some t -> id t <> "" -> 0 <= limit ->
  data (getTasks limit (Some (id t)) tasks)
    = take (Z.to_nat limit) (drop (S i) tasks).
Proof.
  intros Hnd Hi Hne Hl. unfold getTasks. cbn [data].
  destruct (String.eqb_spec (id t) ""); [done|].
  unfold findIndex. rewrite (findIndexFrom_lookup (id t) 0 tasks i t) by done.
  rewrite slice_forward by lia. f_equal; [lia|]. f_equal. lia.
Qed.

Lemma nextCursor_getTasks (limit : Z) (after : option string) (tasks : list Task) :
  Forall (fun t => id t <> "") tasks ->
  nextCursor (getTasks limit after tasks) = id <$> last (data (getTasks limit after tasks)).
Proof.
  intros Hne. unfold nextCursor, getTasks. cbn [paging Tree.after data].
  set (page := slice _ _ _).
  destruct (last page) as [t|] eqn:E; [|done]. simpl.
  assert (Ht : t ∈ tasks).
  { apply last_Some_elem_of in E. unfold page, slice in E.
    by apply subseteq_take, subseteq_drop in E. }
  rewrite Forall_forall in Hne. specialize (Hne t Ht).
  by destruct (String.eqb_spec (id t) "").
Qed.

Lemma pages_S fuel limit after tasks :
  pages (S fuel) limit after tasks
    = data (getTasks limit after tasks) ::
        match nextCursor (getTasks limit after tasks) with
        | Some a => pages fuel limit (Some a) tasks
        | None => []
        end.
Proof. done. Qed.

Lemma pages_after (limit : Z) (tasks : list Task) :
  NoDup (id <$> tasks) -> Forall (fun t => id t <> "") tasks -> 1 <= limit ->
  forall fuel i t,
    tasks !! i = Some t -> (length tasks - S i < fuel)%nat ->
    concat (pages fuel limit (Some (id t)) tasks) = drop (S i) tasks /\
    Forall (fun page => Z.of_nat (length page) <= limit)
           (pages fuel limit (Some (id t)) tasks) /\
    pages (S fuel) limit (Some (id t)) tasks = pages fuel limit (Some (id t)) tasks.
Proof.
  intros Hnd Hne Hl. induction fuel as [|fuel IH]; intros i t Hi Hf; [lia|].
  assert (Hnt : id t <> "").
  { rewrite Forall_forall in Hne. apply Hne. by eapply list_elem_of_lookup_2. }
  rewrite (pages_S (S fuel)), (pages_S fuel limit (Some (id t))).
  rewrite nextCursor_getTasks by done.
  rewrite (getTasks_after limit tasks i t) by (done || lia).
  set (rest := drop (S i) tasks).
  set (page := take (Z.to_nat limit) rest).
  assert (Hlen : Z.of_nat (length page) <= limit).
  { unfold page. rewrite length_take. lia. }
  destruct (last page) as [t'|] eqn:E; cbn [fmap option_fmap option_map concat].
  - rewrite last_lookup in E.
    assert (Hpos : (0 < length page)%nat).
    { apply lookup_lt_Some in E. lia. }
    assert (Hj : tasks !! (S i + Nat.pred (length page))%nat = Some t').
    { unfold page in E. rewrite lookup_take_lt in E
        by (unfold page in Hpos; rewrite length_take in *; lia).
      unfold rest in E. by rewrite lookup_drop in E. }
    assert (Hrest : length rest = (length tasks - S i)%nat)
      by (unfold rest; by rewrite length_drop).
    assert (Hpl : (length page <= length rest)%nat)
      by (unfold page; rewrite length_take; lia).
    destruct (IH _ _ Hj ltac:(lia)) as (Hc & Hall & Hstep).
    split_and!.
    + rewrite Hc.
      replace (S (S i + Nat.pred (length page))) with (S i + length page)%nat by lia.
      rewrite <- drop_drop. fold rest.
      replace (drop (length page) rest) with (drop (Z.to_nat limit) rest).
      { apply take_drop. }
      unfold page. rewrite length_take.
      destruct (Nat.le_gt_cases (Z.to_nat limit) (length rest)).
      * by rewrite Nat.min_l.
      * rewrite Nat.min_r by lia. rewrite !drop_ge; [done|lia|lia].
    + by constructor.
    + by rewrite Hstep.
  - apply last_None in E. split_and!.
    + simpl. rewrite app_nil_r.
      assert (rest = []) as ->; [|done].
      unfold page in E. destruct rest as [|x rest']; [done|].
      destruct (Z.to_nat limit) eqn:El; [lia|]. done.
    + by repeat constructor.
    + done.
Qed.

(** A caller that follows the cursors from the start receives every task
    exactly once and in order, in pages of at most [limit] tasks, and is
    told when to stop, provided the tasks have distinct, non-empty ids and
    the limit is at least one. *)
Theorem pages_list_every_task_once (limit : Z) (tasks : list Task) (fuel : nat) :
  NoDup (id <$> tasks) -> Forall (fun t => id t <> "") tasks -> 1 <= limit ->
  (length tasks < fuel)%nat ->
  concat (pages fuel limit None tasks) = tasks /\
  Forall (fun page => Z.of_nat (length page) <= limit) (pages fuel limit None tasks) /\
  pages (S fuel) limit None tasks = pages fuel limit None tasks.
Proof.
  intros Hnd Hne Hl Hf. destruct fuel as [|fuel]; [lia|].
  rewrite (pages_S (S fuel)), (pages_S fuel limit None).
  rewrite nextCursor_getTasks by done. rewrite getTasks_first.
  destruct (Z.leb_spec 0 limit); [|lia].
  set (page := take (Z.to_nat limit) tasks).
  assert (Hlen : Z.of_nat (length page) <= limit).
  { unfold page. rewrite length_take. lia. }
  destruct (last page) as [t'|] eqn:E; cbn [fmap option_fmap option_map concat].
  - rewrite last_lookup in E.
    assert (Hpos : (0 < length page)%nat).
    { apply lookup_lt_Some in E. lia. }
    assert (Hj : tasks !! Nat.pred (length page) = Some t').
    { unfold page in E. rewrite lookup_take_lt in E
        by (unfold page in Hpos; rewrite length_take in *; lia).
      done. }
    assert (Hpl : (length page <= length tasks)%nat)
      by (unfold page; rewrite length_take; lia).
    destruct (pages_after limit tasks Hnd Hne Hl fuel _ _ Hj ltac:(lia))
      as (Hc & Hall & Hstep).
    split_and!.
    + rewrite Hc. replace (S (Nat.pred (length page))) with (length page) by lia.
      replace (drop (length page) tasks) with (drop (Z.to_nat limit) tasks).
      { apply take_drop. }
      unfold page. rewrite length_take.
      destruct (Nat.le_gt_cases (Z.to_nat limit) (length tasks)).
      * by rewrite Nat.min_l.
      * rewrite Nat.min_r by lia. rewrite !drop_ge; [done|lia|lia].
    + by constructor.
    + by rewrite Hstep.
  - apply last_None in E. split_and!.
    + simpl. rewrite app_nil_r.
      assert (tasks = []) as ->; [|done].
      unfold page in E. destruct tasks as [|x rest']; [done|].
      destruct (Z.to_nat limit) eqn:El; [lia|]. done.
    + by repeat constructor.
    + done.
Qed.

(** The five tasks of the mock client, two at a time: three pages and the
    empty page that ends the listing. *)
Lemma mockTasks_two_at_a_time :
  id <$> concat (pages 6 2 None mockTasks) = ["1"; "2"; "3"; "4"; "5"] /\
  ((fun page : list Task => id <$> page) <$> pages 6 2 None mockTasks)
    = [["1"; "2"]; ["3"; "4"]; ["5"]; []].
Proof.
  assert (Hnd : NoDup (id <$> mockTasks)).
  { apply (bool_decide_unpack _). vm_compute. exact I. }
  assert (Hne : Forall (fun t => id t <> "") mockTasks).
  { unfold mockTasks. repeat constructor; discriminate. }
  split; [|vm_compute; reflexivity].
  by rewrite (proj1 (pages_list_every_task_once 2 mockTasks 6 Hnd Hne
                       ltac:(lia) ltac:(simpl; lia))).
Defined.

(** A cursor that is empty or the id of no task starts the listing over.
    The first page holds the first [limit] tasks; a negative limit counts
    from the end, so that [-1] gives every task but the last. *)
Theorem getTasks_starts_over_on_unknown_cursor (limit : Z) (after : string)
    (tasks : list Task) :
  after = "" \/ after ∉ id <$> tasks ->
  getTasks limit (Some after) tasks = getTasks limit None tasks /\
  data (getTasks limit None tasks)
    = (if 0 <=? limit then take (Z.to_nat limit) tasks
       else take (length tasks - Z.to_nat (- limit)) tasks) /\
  paging (getTasks limit None tasks)
    = Some (mkPaging (Z.of_nat (length tasks))
              (id <$> last (data (getTasks limit None tasks)))).
Proof.
  intros H. split; [|split; [apply getTasks_first|done]].
  unfold getTasks. destruct (String.eqb_spec after "") as [|Hne]; [done|].
  destruct H as [?|H]; [done|].
  apply (findIndexFrom_none after 0 tasks ltac:(lia)) in H.
  unfold findIndex. by rewrite H.
Qed.

(** The cursor of a task that is no longer listed, and a limit of [-1]. *)
Lemma mockTasks_from_a_stale_cursor :
  id <$> data (getTasks 2 (Some "9") mockTasks) = ["1"; "2"] /\
  id <$> data (getTasks (-1) None mockTasks) = ["1"; "2"; "3"; "4"].
Proof.
  split; [|vm_compute; reflexivity].
  assert (H9 : "9" ∉ id <$> mockTasks).
  { apply (bool_decide_unpack _). vm_compute. exact I. }
  rewrite (proj1 (getTasks_starts_over_on_unknown_cursor 2 "9" mockTasks
                    (or_intror H9))).
  vm_compute. reflexivity.
Defined.





End Mock.

(* ===================================================================== *)
(** * TaskWebview *)
(* ===================================================================== *)

Module TaskWebview.
Import Api.

(** [panel.webview.postMessage({ command: 'updateTasks', tasks })] *)
Inductive command := UpdateTasks (tasks : value).

(** The view in its host: the client, the extension context (its secrets and
    the notifications shown, as the token manager sees them), whether the
    panel exists ([show] creates it, [onDidDispose] forgets it), and the
    messages posted to it. *)
Record t := mk {
  api : OpenMetadataAPI;
  context : TokenManager.t;
  panel : bool;
  posted : list command
}.

(** How an [async] method of the view ends; what is thrown here is always an
    [Error], of which the view reads the message. *)
Inductive ending :=
| Returns
| Throws (errorMessage : string)
| Waits.

(** What reading [this.panel!.webview] throws once the panel is gone. *)
Definition panelGone : string :=
  "Cannot read properties of undefined (reading 'webview')".

Definition notify (n : TokenManager.notification) (w : t) : t :=
  mk (api w) (TokenManager.show n (context w)) (panel w) (posted w).

(** [this.panel!.webview.postMessage(m)] *)
Definition postMessage (m : command) (w : t) : string + t :=
  if panel w then inr (mk (api w) (context w) true (posted w ++ [m]))
  else inl panelGone.

(** [updateTasks()] *)
Definition updateTasks (now now' : Z) (w : t) : ending * t :=
  if negb (isAuthenticated (this (api w))) then
    match postMessage (UpdateTasks (VArr [])) w with
    | inr w' => (Returns, w')
    | inl errorMessage => (Throws errorMessage, w)
    end
  else
    let '(r, api') := getTasks 20 None now now' (api w) in
    let w' := mk api' (context w) (panel w) (posted w) in
    let failed errorMessage :=
      (Returns,
       notify (TokenManager.Error ("Error fetching tasks: " +:+ errorMessage)) w') in
    match r with
    | Resolved tasks =>
        match postMessage (UpdateTasks tasks) w' with
        | inr w'' => (Returns, w'')
        | inl errorMessage => failed errorMessage
        end
    | Rejected e => failed (message e)
    | Pending => (Waits, w')
    end.

(** [context.secrets.store('openmetadata-jwt-token', token)] *)
Definition store (token : string) (w : t) : t :=
  mk (api w)
     (TokenManager.mk
        (<["openmetadata-jwt-token" := token]> (TokenManager.secrets (context w)))
        (TokenManager.shown (context w)))
     (panel w) (posted w).

(** [authenticate()]; [input] is what [showInputBox] resolves with. *)
Definition authenticate (input : option string) (server : service)
    (now now' : Z) (w : t) : ending * t :=
  match input with
  | Some token =>
      if String.eqb token "" then (Returns, w)
      else
        let '(r, api') := Api.authenticate server token (api w) in
        let w' := mk api' (context w) (panel w) (posted w) in
        let failed errorMessage w :=
          (Returns,
           notify (TokenManager.Error ("Authentication error: " +:+ errorMessage))
                  w) in
        match r with
        | Resolved true =>
            let told :=
              notify (TokenManager.Information "Authentication successful")
                     (store token w') in
            match updateTasks now now' told with
            | (Throws errorMessage, w'') => failed errorMessage w''
            | ended => ended
            end
        | Resolved false =>
            (Returns, notify (TokenManager.Error "Authentication failed") w')
        | Rejected e => failed (message e) w'
        | Pending => (Waits, w')
        end
  | None => (Returns, w)
  end.

(** How the probe of [token] ends: with a response of 2xx status, with
    another response or none, or never. *)
Inductive verdict := Accepted | Refused | Unanswered.

Definition probe (server : service) (token : string) (w : t) : verdict :=
  match server "GET" (baseUrl (this (api w)) +:+ "/api/v1/system/config/jwks") token with
  | Response status _ _ =>
      if (200 <=? status) && (status <? 300) then Accepted else Refused
  | NoResponse | NotSent => Refused
  | Silence => Unanswered
  end.

(** What [getTasks] resolves with on a client that holds a token: the cached
    listing while it is fresh, and otherwise an envelope around the promise
    of the request just launched, which is what gets cached. *)
Definition listing (limit : Z) (after : option string) (now : Z)
    (c : OpenMetadataAPI) : value :=
  match cache c !! tasksKey limit after with
  | Some e =>
      if fresh now e then data e
      else VObj [("data",
                  VPromise (RateLimiter.callers
                              (RateLimiter.advance now (rateLimiter (this c)))))]
  | None =>
      VObj [("data",
             VPromise (RateLimiter.callers
                         (RateLimiter.advance now (rateLimiter (this c)))))]
  end.

(** [show()]: the panel is revealed or created, then the tasks are sent. *)
Definition show (now now' : Z) (w : t) : ending * t :=
  updateTasks now now' (mk (api w) (context w) true (posted w)).

(* --------------------------------------------------------------------- *)
(** ** Properties *)

Lemma probe_accepted server token w :
  probe server token w = Accepted ->
  exists api',
    Api.authenticate server token (api w) = (Resolved true, api') /\
    Api.token (this api') = token /\ cache api' = cache (api w).
Proof.
  unfold probe, Api.authenticate, axios.
  destruct (server _ _ _) as [status statusText d| | |]; [|done..].
  destruct ((200 <=? status) && (status <? 300)) eqn:H; [|done].
  intros _. cbn beta iota. rewrite H. eauto.
Qed.

Lemma probe_refused server token w :
  probe server token w = Refused ->
  exists error api',
    Api.authenticate server token (api w) = (Rejected (handleError error), api') /\
    Api.token (this api') = Api.token (this (api w)) /\ cache api' = cache (api w).
Proof.
  unfold probe, Api.authenticate, axios.
  destruct (server _ _ _) as [status statusText d| | |]; [|eauto..|done].
  destruct ((200 <=? status) && (status <? 300)) eqn:H; [done|]. eauto.
Qed.

Lemma probe_unanswered server token w :
  probe server token w = Unanswered ->
  exists api',
    Api.authenticate server token (api w) = (Pending, api') /\
    Api.token (this api') = Api.token (this (api w)) /\ cache api' = cache (api w).
Proof.
  unfold probe, Api.authenticate, axios.
  destruct (server _ _ _) as [status statusText d| | |]; [|done..|eauto].
  by destruct ((200 <=? status) && (status <? 300)).
Qed.

Lemma getTasks_with_token limit after now now' (c : OpenMetadataAPI) :
  isAuthenticated (this c) = true ->
  let result := getTasks limit after now now' c in
  result.1 = Resolved (listing limit after now c) /\
  token (this result.2) = token (this c) /\
  (forall e, cache c !! tasksKey limit after = Some e ->
     now - timestamp e < CACHE_TTL ->
     listing limit after now c = data e /\ result.2 = c) /\
  (stale_or_absent now (tasksKey limit after) c ->
     let k := RateLimiter.callers (RateLimiter.advance now (rateLimiter (this c))) in
     listing limit after now c = VObj [("data", VPromise k)] /\
     detached (this result.2)
       = detached (this c) ++ [(k, "GET", tasksEndpoint limit after)] /\
     cache result.2 !! tasksKey limit after
       = Some (mkCached (VObj [("data", VPromise k)]) now')).
Proof.
  intros Ha result. unfold result, getTasks, cachedRequest, listing.
  assert (Hfn : getTasksFn limit after now (this c)
                = (Resolved (VObj [("data",
                     VPromise (RateLimiter.callers
                                 (RateLimiter.advance now (rateLimiter (this c)))))]),
                   (requestDetached "GET" (tasksEndpoint limit after) now (this c)).2)).
  { unfold getTasksFn. rewrite Ha. reflexivity. }
  rewrite Hfn. unfold stale_or_absent.
  destruct (cache c !! tasksKey limit after) as [e|] eqn:E.
  - unfold fresh. destruct (Z.ltb_spec (now - timestamp e) CACHE_TTL) as [Hf|Hf];
      cbn [fst snd this cache].
    + split_and!; [done|done| |].
      * by intros ? [= <-] _.
      * intros Hs. specialize (Hs e eq_refl). lia.
    + split_and!; [done|done| |].
      * intros ? [= <-] ?. lia.
      * intros _. split_and!; [done|done|]. apply lookup_insert_eq.
  - cbn [fst snd this cache]. split_and!; [done|done|done|].
    intros _. split_and!; [done|done|]. apply lookup_insert_eq.
Qed.

Lemma updateTasks_cases (now now' : Z) (w : t) :
  let result := updateTasks now now' w in
  let tasks := listing 20 None now (api w) in
  result.1 <> Waits /\
  panel result.2 = panel w /\
  (result.1 = Throws panelGone <->
     panel w = false /\ isAuthenticated (this (api w)) = false) /\
  (forall errorMessage, result.1 = Throws errorMessage ->
     errorMessage = panelGone /\ result.2 = w) /\
  (isAuthenticated (this (api w)) = false -> panel w = true ->
     result = (Returns,
               mk (api w) (context w) true (posted w ++ [UpdateTasks (VArr [])]))) /\
  (isAuthenticated (this (api w)) = true ->
     getTasks 20 None now now' (api w) = (Resolved tasks, api result.2) /\
     result.1 = Returns /\
     TokenManager.secrets (context result.2) = TokenManager.secrets (context w) /\
     (panel w = true ->
        context result.2 = context w /\
        posted result.2 = posted w ++ [UpdateTasks tasks]) /\
     (panel w = false ->
        posted result.2 = posted w /\
        TokenManager.shown (context result.2)
          = TokenManager.shown (context w)
            ++ [TokenManager.Error ("Error fetching tasks: " +:+ panelGone)])).
Proof.
  intros result tasks. unfold result, tasks, updateTasks, postMessage.
  destruct (isAuthenticated (this (api w))) eqn:Ha; cbn [negb].
  - destruct (getTasks_with_token 20 None now now' (api w) Ha) as (Hr & _).
    destruct (getTasks 20 None now now' (api w)) as [r c'] eqn:Hg.
    cbn [fst] in Hr. subst r.
    cbn [panel]. destruct (panel w) eqn:Hp;
      cbn [fst snd api panel posted context notify].
    + split_and!; try done; try (split; [done|by intros [? ?]]);
        try (intros _; split_and!; done).
    + split_and!; try done; try (split; [done|by intros [? ?]]);
        try (intros _; split_and!; done).
  - destruct (panel w) eqn:Hp; cbn [fst snd api panel posted context];
      split_and!; try done; try (split; [done|by intros [? ?]]);
      try (by intros ? [= <-]).
Qed.

(** [updateTasks] never waits.  Without a token it posts the empty list and
    touches nothing else, or throws once the panel is gone.  With a token
    it posts what [getTasks] resolves with, which it always does: the cached
    listing while that is fresh, and otherwise the envelope around the
    promise of the request that [getTasks] has just launched and left to
    itself; no error is reported to the user unless the panel is gone.
    [show], which makes sure of the panel first, therefore always returns
    with one message posted and nothing reported. *)
Theorem updateTasks_posts_or_reports (now now' : Z) (w : t) :
  let result := updateTasks now now' w in
  let tasks := listing 20 None now (api w) in
  result.1 <> Waits /\
  panel result.2 = panel w /\
  (result.1 = Throws panelGone <->
     panel w = false /\ isAuthenticated (this (api w)) = false) /\
  (forall errorMessage, result.1 = Throws errorMessage ->
     errorMessage = panelGone /\ result.2 = w) /\
  (isAuthenticated (this (api w)) = false -> panel w = true ->
     result = (Returns,
               mk (api w) (context w) true (posted w ++ [UpdateTasks (VArr [])]))) /\
  (isAuthenticated (this (api w)) = true ->
     getTasks 20 None now now' (api w) = (Resolved tasks, api result.2) /\
     result.1 = Returns /\
     TokenManager.secrets (context result.2) = TokenManager.secrets (context w) /\
     (panel w = true ->
        context result.2 = context w /\
        posted result.2 = posted w ++ [UpdateTasks tasks]) /\
     (panel w = false ->
        posted result.2 = posted w /\
        TokenManager.shown (context result.2)
          = TokenManager.shown (context w)
            ++ [TokenManager.Error ("Error fetching tasks: " +:+ panelGone)]) /\
     (forall e, cache (api w) !! tasksKey 20 None = Some e ->
        now - timestamp e < CACHE_TTL ->
        tasks = data e /\ api result.2 = api w) /\
     (stale_or_absent now (tasksKey 20 None) (api w) ->
        let k := RateLimiter.callers
                   (RateLimiter.advance now (rateLimiter (this (api w)))) in
        tasks = VObj [("data", VPromise k)] /\
        detached (this (api result.2))
          = detached (this (api w)) ++ [(k, "GET", "/tasks?limit=20")] /\
        cache (api result.2) !! tasksKey 20 None
          = Some (mkCached (VObj [("data", VPromise k)]) now'))) /\
  (let opened := show now now' w in
   opened.1 = Returns /\ panel opened.2 = true /\ context opened.2 = context w /\
   posted opened.2
     = posted w ++ [UpdateTasks (if isAuthenticated (this (api w)) then tasks
                                 else VArr [])]).
Proof.
  intros result tasks.
  pose proof (updateTasks_cases now now' w) as H.
  pose proof (updateTasks_cases now now' (mk (api w) (context w) true (posted w)))
    as Hs.
  cbv zeta in H, Hs. cbn [panel context posted api] in Hs.
  destruct H as (H1 & H2 & H3 & H4 & H5 & H6).
  destruct Hs as (_ & Hp & _ & _ & Hout & Hin).
  split_and!; try done.
  - intros Ha. destruct (H6 Ha) as (Hg & Hr & Hsec & Hon & Hoff).
    pose proof (getTasks_with_token 20 None now now' (api w) Ha) as Hl.
    cbv zeta in Hl. rewrite Hg in Hl. cbn [fst snd] in Hl.
    destruct Hl as (_ & _ & Hhit & Hmiss).
    split_and!; try done.
  - unfold show. destruct (isAuthenticated (this (api w))) eqn:Ha.
    + destruct (Hin eq_refl) as (_ & Hr & _ & Hon & _).
      destruct (Hon eq_refl) as [Hc Hposted]. done.
    + rewrite (Hout eq_refl eq_refl). done.
Qed.

(** [authenticate] never throws.  Without an input it does nothing.  With
    one, the secret is stored exactly when the probe ends with a response of
    2xx status: the token manager then reads the token back, the client
    holds it, the success is announced and what [getTasks] resolves with is
    posted to the panel (or, the panel being gone, the engine's error is
    shown).  When the probe ends otherwise nothing is stored or posted, the
    client keeps the token it had, and the one message shown carries the
    error of the client.  When the probe never ends, neither does
    [authenticate], and nothing is stored, shown or posted.  The message for
    a probe that resolves with [false] is never shown. *)
Theorem authenticate_stores_the_secret_when_accepted (input : option string)
    (server : service) (now now' : Z) (w : t) :
  let result := authenticate input server now now' w in
  let secrets w := TokenManager.secrets (context w) in
  let shown w := TokenManager.shown (context w) in
  (forall errorMessage, result.1 <> Throws errorMessage) /\
  (input = None \/ input = Some "" -> result = (Returns, w)) /\
  (forall token, input = Some token -> token <> "" ->
     let signed := (Api.authenticate server token (api w)).2 in
     (probe server token w = Accepted ->
        result.1 = Returns /\
        secrets result.2 = <[TokenManager.TOKEN_KEY := token]> (secrets w) /\
        TokenManager.getToken (context result.2) = Some token /\
        Api.token (this (api result.2)) = token /\
        getTasks 20 None now now' signed
          = (Resolved (listing 20 None now signed), api result.2) /\
        if panel w then
          shown result.2
            = shown w ++ [TokenManager.Information "Authentication successful"] /\
          posted result.2 = posted w ++ [UpdateTasks (listing 20 None now signed)]
        else
          shown result.2
            = shown w ++ [TokenManager.Information "Authentication successful";
                          TokenManager.Error ("Error fetching tasks: " +:+ panelGone)] /\
          posted result.2 = posted w) /\
     (probe server token w = Refused ->
        result.1 = Returns /\
        secrets result.2 = secrets w /\
        posted result.2 = posted w /\
        api result.2 = signed /\
        Api.token (this (api result.2)) = Api.token (this (api w)) /\
        exists error,
          shown result.2
            = shown w ++ [TokenManager.Error
                            ("Authentication error: " +:+ message (handleError error))]) /\
     (probe server token w = Unanswered ->
        result.1 = Waits /\
        context result.2 = context w /\
        posted result.2 = posted w /\
        Api.token (this (api result.2)) = Api.token (this (api w)))) /\
  (TokenManager.Error "Authentication failed" ∈ shown result.2 ->
   TokenManager.Error "Authentication failed" ∈ shown w).
Proof.
  intros result secrets shown. unfold result, secrets, shown, authenticate.
  destruct input as [token|]; [|by split_and!; [| |intros ? [=]|]].
  destruct (String.eqb_spec token "") as [->|Hne];
    [by split_and!; [| |intros ? [= <-] ?|]|].
  assert (Hin : forall P : Prop, (Some token = None \/ Some token = Some "" -> P)).
  { intros P [|[=]]; done. }
  destruct (probe server token w) eqn:Hacc.
  - destruct (probe_accepted server token w Hacc) as (api' & Hauth & Htok & Hcache).
    rewrite Hauth.
    assert (Ha : isAuthenticated (this api') = true).
    { unfold isAuthenticated. rewrite Htok.
      by destruct (String.eqb_spec token ""). }
    set (told := notify _ (store token _)).
    pose proof (updateTasks_cases now now' told) as H. cbv zeta in H.
    destruct H as (Hnw & Hpanel & _ & Hthrow & _ & Hwith).
    change (api told) with api' in Hwith.
    destruct (Hwith Ha) as (Hg & Hr & Hsec & Hon & Hoff).
    destruct (updateTasks now now' told) as [e w''] eqn:Hu.
    cbn [fst snd] in *. subst e.
    split_and!; [done|apply Hin| |].
    + intros ? [= <-] _. cbv zeta. rewrite Hauth. cbn [snd].
      split_and!; try (intros; congruence). intros _. split_and!.
      * done.
      * by rewrite Hsec.
      * unfold TokenManager.getToken. rewrite Hsec.
        unfold told, notify, store, TokenManager.show, TokenManager.TOKEN_KEY.
        cbn [context TokenManager.secrets]. rewrite lookup_insert_eq.
        unfold TokenManager.decryptToken.
        by destruct (String.eqb_spec token "").
      * pose proof (getTasks_with_token 20 None now now' api' Ha) as Hl.
        cbv zeta in Hl. rewrite Hg in Hl. cbn [fst snd] in Hl.
        destruct Hl as (_ & -> & _). done.
      * done.
      * change (panel told) with (panel w) in Hon, Hoff.
        change (posted told) with (posted w) in Hon, Hoff.
        destruct (panel w).
        -- destruct (Hon eq_refl) as [-> ->]. done.
        -- destruct (Hoff eq_refl) as [-> ->]. split; [|done].
           unfold told, notify, store, TokenManager.show.
           cbn [context TokenManager.shown]. by rewrite <- app_assoc.
    + cbn [fst snd].
      change (panel told) with (panel w) in Hon, Hoff.
      change (posted told) with (posted w) in Hon, Hoff.
      destruct (panel w).
      * destruct (Hon eq_refl) as [-> _].
        unfold told, notify, store, TokenManager.show. cbn [context TokenManager.shown].
        rewrite elem_of_app, list_elem_of_singleton. intros [?|[=]]. done.
      * destruct (Hoff eq_refl) as [_ ->].
        unfold told, notify, store, TokenManager.show. cbn [context TokenManager.shown].
        rewrite !elem_of_app, !list_elem_of_singleton. intros [[?|[=]]|[=]]. done.
  - destruct (probe_refused server token w Hacc) as (error & api' & Hauth & Htok & Hcache).
    rewrite Hauth. unfold notify, TokenManager.show.
    cbn [fst snd context posted api TokenManager.secrets TokenManager.shown].
    split_and!; [done|apply Hin| |].
    + intros ? [= <-] _. cbv zeta. rewrite Hauth. cbn [snd].
      split_and!; try (intros; congruence). intros _. split_and!; try done. eauto.
    + rewrite elem_of_app, list_elem_of_singleton. intros [?|[=]]. done.
  - destruct (probe_unanswered server token w Hacc) as (api' & Hauth & Htok & Hcache).
    rewrite Hauth. cbn [fst snd context posted api].
    split_and!; [done|apply Hin| |done].
    intros ? [= <-] _. cbv zeta. split_and!; try (intros; congruence).
    intros _. split_and!; done.
Qed.

End TaskWebview.
